(** * Sprite-sheet packer and legacy atlas translator

    A shallow embedding of [sprites/create_spritesheets.py] and the
    properties of its layout, label parsing and natural ordering.

    Modelling conventions.
    - Python [str] is [string]; the text handled is ASCII, so the character
      classes below are the ASCII part of Python's ([str.isspace], [\s],
      [\d], [str.isdigit], [str.lower]); a code above 127 belongs to no class.
    - Python [int] is [Z]; [//] and [%] are [Z.div] and [Z.modulo] (both
      round towards minus infinity, as Python does).
    - Images are opaque: only their pixel size is kept.  A written atlas is
      the text handed to [f.write]; [print] diagnostics are kept where a
      result depends on them.
    - An exception is a [None] (a [TypeError] of a comparison) or its own
      constructor of a result type. *)

From Stdlib Require Import ZArith List Bool Ascii String Lia.
From Stdlib Require Import Permutation Sorted DecimalString DecimalPos.
From Stdlib Require Import DecimalZ.
Import ListNotations.

Local Open Scope string_scope.
Local Open Scope Z_scope.

(** ** Characters and strings *)

Module Str.

Definition code (c : ascii) : N := N_of_ascii c.

Definition between (lo hi : N) (c : ascii) : bool :=
  ((lo <=? code c) && (code c <=? hi))%N.

(** [\d] and, on ASCII text, [str.isdigit] of one character. *)
Definition is_digit (c : ascii) : bool := between 48 57 c.

(** [[a-z]] *)
Definition is_lower (c : ascii) : bool := between 97 122 c.

Definition is_upper (c : ascii) : bool := between 65 90 c.

(** [\s] and [str.isspace]: tab, line feed, vertical tab, form feed,
    carriage return, the four separators 0x1c..0x1f and the space. *)
Definition is_space (c : ascii) : bool :=
  between 9 13 c || between 28 32 c.

Definition nl : ascii := ascii_of_N 10.
Definition cr : ascii := ascii_of_N 13.
Definition tab : ascii := ascii_of_N 9.

Definition is_nl (c : ascii) : bool := (code c =? 10)%N.

Definition not_nl (c : ascii) : bool := negb (is_nl c).

Definition is_dot (c : ascii) : bool := (code c =? 46)%N.

(** [str.lower] *)
Definition lower_char (c : ascii) : ascii :=
  if is_upper c then ascii_of_N (code c + 32) else c.

Fixpoint lower (s : string) : string :=
  match s with
  | EmptyString => EmptyString
  | String c s' => String (lower_char c) (lower s')
  end.

Fixpoint all_chars (p : ascii -> bool) (s : string) : bool :=
  match s with
  | EmptyString => true
  | String c s' => p c && all_chars p s'
  end.

Definition nonempty (s : string) : bool :=
  match s with EmptyString => false | String _ _ => true end.

(** [str.isdigit]: at least one character, and all of them digits. *)
Definition isdigit (s : string) : bool := nonempty s && all_chars is_digit s.

(** The longest prefix of [s] whose characters satisfy [p], and the rest. *)
Fixpoint span (p : ascii -> bool) (s : string) : string * string :=
  match s with
  | EmptyString => (EmptyString, EmptyString)
  | String c s' =>
      if p c then let (a, b) := span p s' in (String c a, b)
      else (EmptyString, s)
  end.

Fixpoint lstrip (s : string) : string :=
  match s with
  | EmptyString => EmptyString
  | String c s' => if is_space c then lstrip s' else s
  end.

Fixpoint rstrip (s : string) : string :=
  match s with
  | EmptyString => EmptyString
  | String c s' =>
      match rstrip s' with
      | EmptyString => if is_space c then EmptyString else String c EmptyString
      | r => String c r
      end
  end.

(** [str.strip()] *)
Definition strip (s : string) : string := rstrip (lstrip s).

Definition digit_val (c : ascii) : Z := Z.of_N (code c) - 48.

Fixpoint int_acc (acc : Z) (s : string) : Z :=
  match s with
  | EmptyString => acc
  | String c s' => int_acc (10 * acc + digit_val c) s'
  end.

(** [int(s)] on a run of decimal digits (a run of a file name or of a
    label line, far below the length at which [int] refuses a text). *)
Definition int (s : string) : Z := int_acc 0 s.

(** [str(n)], the decimal text an f-string puts for an integer. *)
Definition str (n : Z) : string := NilZero.string_of_int (Z.to_int n).

(** [ord(c) - ord('a')] *)
Definition letter_index (c : ascii) : Z := Z.of_N (code c) - 97.

Definition ends_with (suffix s : string) : bool :=
  let n := String.length s in
  let k := String.length suffix in
  (k <=? n)%nat && String.eqb (substring (n - k) k s) suffix.

(** [sep.join(parts)] *)
Definition join (sep : string) (parts : list string) : string :=
  String.concat sep parts.

End Str.

Import Str.

(** The one-character strings ["\n"] and ["\t"] of the Python source. *)
Definition NL : string := String nl EmptyString.
Definition TAB : string := String tab EmptyString.

(** [range(n)] *)
Definition range (n : Z) : list Z := map Z.of_nat (seq 0 (Z.to_nat n)).

(** [enumerate(l)] *)
Definition enumerate {A : Type} (l : list A) : list (Z * A) :=
  combine (range (Z.of_nat (List.length l))) l.

(** ** Atlas records and the atlas text *)

Record AtlasEntry : Type := mkEntry
  { name : string; x : Z; y : Z; w : Z; h : Z }.

(** The record line [f"{name}\t{x}\t{y}\t{w}\t{h}"]. *)
Definition atlas_line (e : AtlasEntry) : string :=
  name e ++ TAB ++ str (x e) ++ TAB ++ str (y e) ++ TAB ++ str (w e)
         ++ TAB ++ str (h e).

(** The six [f.write] calls that every generator ends with; the fifth
    header line holds a backslash and a [t], not a tab. *)
Definition atlas_text (png_name : string) (count sheet_w sheet_h w h : Z)
    (atlas_lines : list string) : string :=
  ("# Sprite Sheet Atlas: " ++ png_name ++ NL)
  ++ ("# Total sprites: " ++ str count ++ NL)
  ++ ("# Sheet size: " ++ str sheet_w ++ "x" ++ str sheet_h ++ NL)
  ++ ("# Icon size: " ++ str w ++ "x" ++ str h ++ NL)
  ++ ("# Format: name\tx\ty\twidth\theight" ++ NL)
  ++ (join NL atlas_lines ++ NL).

(** ** Reading the label file *)

(** [open(txt_path)] reads in text mode with universal newlines: a
    carriage return, alone or before a line feed, arrives as a line feed. *)
Fixpoint universal_newlines (s : string) : string :=
  match s with
  | EmptyString => EmptyString
  | String c s' =>
      if (code c =? 13)%N then
        match s' with
        | String c' _ =>
            if is_nl c' then universal_newlines s'
            else String nl (universal_newlines s')
        | EmptyString => String nl EmptyString
        end
      else String c (universal_newlines s')
  end.

(** [for l in f]: the lines of the text, each with its line feed, the last
    one without when the text does not end in one. *)
Fixpoint file_lines (s : string) : list string :=
  match s with
  | EmptyString => []
  | String c s' =>
      if is_nl c then String c EmptyString :: file_lines s'
      else
        match file_lines s' with
        | [] => [String c EmptyString]
        | l :: ls => String c l :: ls
        end
  end.

(** [all_lines = [l.strip() for l in f if l.strip()]] *)
Definition strip_nonempty (ls : list string) : list string :=
  map strip (filter (fun l => nonempty (strip l)) ls).

Definition read_label_lines (text : string) : list string :=
  strip_nonempty (file_lines (universal_newlines text)).

(** ** The three regular expressions of the translator

    Each matcher follows the expression atom by atom.  A greedy atom whose
    shorter matches can never be followed by the next atom (a digit run
    before a dot) is taken at its longest; the backtracking of [\s+] before
    [(.+)$] is written out. *)

(** [\d+] at the start of [s]: the digit run and what follows it. *)
Definition digits1 (s : string) : option (string * string) :=
  let (ds, rest) := span is_digit s in
  if nonempty ds then Some (ds, rest) else None.

(** [re.match(r'^\d+\.[a-z]', l)] *)
Definition match_row_col (l : string) : bool :=
  match digits1 l with
  | Some (_, String d (String c _)) => is_dot d && is_lower c
  | _ => false
  end.

(** [re.match(r'^\d+\.\s', l)] *)
Definition match_row_num (l : string) : bool :=
  match digits1 l with
  | Some (_, String d (String c _)) => is_dot d && is_space c
  | _ => false
  end.

(** [(.+)$] at [s]: [.] takes every character up to a line feed, and [$]
    holds at the end of the text or before a final line feed.  A shorter
    run of [.] stops before a character that is not a line feed, where [$]
    fails. *)
Definition dot_plus_eol (s : string) : option string :=
  let (g, rest) := span not_nl s in
  if nonempty g && (String.eqb rest EmptyString || String.eqb rest NL)
  then Some g else None.

(** [\s+(.+)$] at [s]: one more white space first, and when everything
    after that fails, the run stops here. *)
Fixpoint ws_plus_label (s : string) : option string :=
  match s with
  | EmptyString => None
  | String c s' =>
      if is_space c then
        match ws_plus_label s' with
        | Some g => Some g
        | None => dot_plus_eol s'
        end
      else None
  end.

(** [\.?\s+(.+)$] at [s]: the dot is taken when it is there, and left
    when what follows fails. *)
Definition opt_dot_ws_label (s : string) : option string :=
  match s with
  | String d s' =>
      if is_dot d then
        match ws_plus_label s' with
        | Some g => Some g
        | None => ws_plus_label s
        end
      else ws_plus_label s
  | EmptyString => ws_plus_label s
  end.

(** [re.match(r'^(\d+)\.([a-z])\.?\s+(.+)$', line)]: groups 1, 2 and 3. *)
Definition match_grid_line (line : string) : option (string * ascii * string) :=
  match digits1 line with
  | Some (ds, String d (String c rest)) =>
      if is_dot d && is_lower c then
        match opt_dot_ws_label rest with
        | Some g => Some (ds, c, g)
        | None => None
        end
      else None
  | _ => None
  end.

(** [re.match(r'^(\d+)\.\s+(.+)$', line)]: groups 1 and 2. *)
Definition match_row_line (line : string) : option (string * string) :=
  match digits1 line with
  | Some (ds, String d rest) =>
      if is_dot d then
        match ws_plus_label rest with
        | Some g => Some (ds, g)
        | None => None
        end
      else None
  | _ => None
  end.

(** ** The legacy translator, [generate_32rogues_atlas] *)

Inductive LabelFormat : Type := GridRef | RowLabel | PlainLabel.

(** [any(re.match(r'^\d+\.[a-z]', l) for l in all_lines)] *)
Definition has_row_col (all_lines : list string) : bool :=
  existsb match_row_col all_lines.

(** [any(re.match(r'^\d+\.\s', l) for l in all_lines)] *)
Definition has_row_num (all_lines : list string) : bool :=
  existsb match_row_num all_lines.

(** The branch of [if has_row_col: ... elif has_row_num: ... else: ...]. *)
Definition label_format (all_lines : list string) : LabelFormat :=
  if has_row_col all_lines then GridRef
  else if has_row_num all_lines then RowLabel
  else PlainLabel.

Section Translator.

(** The source sets [tile_size = 32] at the top of the function and uses
    only the variable below that; the body is kept over the variable and
    [generate_32rogues_atlas] binds it.  The variable stands for a value
    that is not zero, so that [//] does not raise. *)
Variable tile_size : Z.

(** Format 1, the body of [for line in all_lines] under [has_row_col]. *)
Definition grid_line (line : string) : list AtlasEntry :=
  match match_grid_line line with
  | Some (g1, g2, g3) =>
      let row_num := int g1 - 1 in
      let col_num := letter_index g2 in
      let name := strip g3 in
      let x := col_num * tile_size in
      let y := row_num * tile_size in
      [mkEntry name x y tile_size tile_size]
  | None => []
  end.

(** Format 2, the body of [for line in all_lines] under [has_row_num]. *)
Definition row_line (cols : Z) (line : string) : list AtlasEntry :=
  match match_row_line line with
  | Some (g1, g2) =>
      let row_num := int g1 - 1 in
      let name := strip g2 in
      map (fun col_num =>
             let x := col_num * tile_size in
             let y := row_num * tile_size in
             let frame_name := name ++ " [frame " ++ str col_num ++ "]" in
             mkEntry frame_name x y tile_size tile_size)
          (range cols)
  | None => []
  end.

(** Format 3: the records of one label, whose block starts at
    [current_row]. *)
Definition plain_block (cols rows_per_group current_row : Z) (line : string)
    : list AtlasEntry :=
  let name := strip line in
  flat_map (fun r =>
    map (fun c =>
           let x := c * tile_size in
           let y := (current_row + r) * tile_size in
           let tile_name :=
             name ++ " [row " ++ str r ++ ", col " ++ str c ++ "]" in
           mkEntry tile_name x y tile_size tile_size)
        (range cols))
    (range rows_per_group).

(** Format 3, [for line in all_lines], threading [current_row]. *)
Fixpoint plain_loop (cols rows_per_group current_row : Z)
    (lines : list string) : list AtlasEntry :=
  match lines with
  | [] => []
  | line :: rest =>
      plain_block cols rows_per_group current_row line
      ++ plain_loop cols rows_per_group (current_row + rows_per_group) rest
  end.

Definition plain_lines (cols rows : Z) (all_lines : list string)
    : list AtlasEntry :=
  let label_count := Z.of_nat (List.length all_lines) in
  let rows_per_group := rows / Z.max 1 label_count in
  plain_loop cols rows_per_group 0 all_lines.

(** The records put in [atlas_lines] for one sheet. *)
Definition sheet_entries (sheet_w sheet_h : Z) (all_lines : list string)
    : list AtlasEntry :=
  let cols := sheet_w / tile_size in
  let rows := sheet_h / tile_size in
  if has_row_col all_lines then flat_map grid_line all_lines
  else if has_row_num all_lines then flat_map (row_line cols) all_lines
  else plain_lines cols rows all_lines.

End Translator.

(** What the directory holds for one sheet: the pixel size of the image
    when [png_path] exists, the text of the label file when [txt_path]
    exists. *)
Record SheetFiles : Type := mkFiles
  { png : option (Z * Z); txt : option string }.

(** What one turn of [for sheet_name, png_file, txt_file in sheets] does. *)
Inductive SheetResult : Type :=
| Skipped (diagnostic : string)
| Written (out_png out_atlas atlas : string) (entries : list AtlasEntry).

Definition translate_sheet (tile_size : Z) (sheet_name : string)
    (files : SheetFiles) : SheetResult :=
  match png files, txt files with
  | Some (sheet_w, sheet_h), Some text =>
      let all_lines := read_label_lines text in
      let entries := sheet_entries tile_size sheet_w sheet_h all_lines in
      let atlas_lines := map atlas_line entries in
      let out_png := "32rogues-" ++ sheet_name ++ ".png" in
      Written out_png
        ("32rogues-" ++ sheet_name ++ "-atlas.txt")
        (atlas_text out_png (Z.of_nat (List.length atlas_lines))
           sheet_w sheet_h tile_size tile_size atlas_lines)
        entries
  | _, _ => Skipped ("  Skipping " ++ sheet_name ++ ": missing files")
  end.

Definition sheets : list string :=
  ["items"; "monsters"; "animals"; "rogues"; "tiles"; "animated-tiles";
   "autotiles"].

Definition generate_32rogues_atlas (rogues_dir : string -> SheetFiles)
    : list SheetResult :=
  let tile_size := 32 in
  map (fun sheet_name => translate_sheet tile_size sheet_name
                           (rogues_dir sheet_name))
      sheets.

(** ** The natural sort key *)

(** An element of a key: [int(c)] or [c.lower()]. *)
Inductive key_part : Type := KInt (n : Z) | KStr (t : string).

(** [re.split(r'(\d+)', s)]: the text between the digit runs and, the
    group being a capturing one, the digit runs themselves, in turn.  The
    list starts and ends with a text, which is empty where a digit run
    touches the border. *)
Fixpoint re_split_digits (s : string) : list string :=
  match s with
  | EmptyString => [EmptyString]
  | String c s' =>
      let parts := re_split_digits s' in
      if is_digit c then
        match parts with
        | EmptyString :: d :: rest => EmptyString :: String c d :: rest
        | _ => EmptyString :: String c EmptyString :: parts
        end
      else
        match parts with
        | t :: rest => String c t :: rest
        | [] => [String c EmptyString]
        end
  end.

Definition natural_sort_key (s : string) : list key_part :=
  map (fun c => if isdigit c then KInt (int c) else KStr (lower c))
      (re_split_digits s).

(** [p == q]: an [int] and a [str] are different, without an error. *)
Definition part_eqb (p q : key_part) : bool :=
  match p, q with
  | KInt a, KInt b => a =? b
  | KStr a, KStr b => String.eqb a b
  | _, _ => false
  end.

(** [p < q]: [None] is the [TypeError] of an [int] against a [str]. *)
Definition part_lt (p q : key_part) : option bool :=
  match p, q with
  | KInt a, KInt b => Some (a <? b)
  | KStr a, KStr b => Some (String.ltb a b)
  | _, _ => None
  end.

(** [a < b] on lists: the first pair of different elements decides, and
    when there is none the shorter list is the smaller. *)
Fixpoint key_lt (a b : list key_part) : option bool :=
  match a, b with
  | [], [] => Some false
  | [], _ :: _ => Some true
  | _ :: _, [] => Some false
  | p :: a', q :: b' => if part_eqb p q then key_lt a' b' else part_lt p q
  end.

(** [sorted(l, key=key)]: the stable sort by [<] on the keys; [None]
    when a comparison raises. *)
Section Sorted.

Context {A K : Type} (key : A -> K) (lt : K -> K -> option bool).

Fixpoint insert (x : A) (l : list A) : option (list A) :=
  match l with
  | [] => Some [x]
  | y :: l' =>
      match lt (key y) (key x) with
      | None => None
      | Some true => option_map (cons y) (insert x l')
      | Some false => Some (x :: l)
      end
  end.

Fixpoint sorted (l : list A) : option (list A) :=
  match l with
  | [] => Some []
  | x :: l' =>
      match sorted l' with
      | Some s => insert x s
      | None => None
      end
  end.

End Sorted.

(** [sorted(l)] on strings *)
Definition str_lt (a b : string) : option bool := Some (String.ltb a b).

(** ** The packer *)

(** [math.ceil(math.sqrt(count))].  The square root is taken in double
    precision; it is the exact one rounded, so that the ceiling is the
    integer one for every count below 2^52, which a directory listing
    cannot reach. *)
Definition ceil_sqrt (count : Z) : Z :=
  let s := Z.sqrt count in
  if s * s =? count then s else s + 1.

(** [math.ceil(count / cols)], exact under the same bound. *)
Definition ceil_div (count cols : Z) : Z :=
  let q := count / cols in
  if q * cols =? count then q else q + 1.

(** [os.path.splitext(fname)[0]] for a name without a directory part: the
    name up to its last dot, unless only dots come before that dot. *)
Fixpoint cut_last_dot (s : string) : option string :=
  match s with
  | EmptyString => None
  | String c s' =>
      match cut_last_dot s' with
      | Some r => Some (String c r)
      | None => if is_dot c then Some EmptyString else None
      end
  end.

Definition splitext_root (fname : string) : string :=
  match cut_last_dot fname with
  | Some r => if all_chars is_dot r then fname else r
  | None => fname
  end.

(** [f.lower().endswith('.png')] *)
Definition is_png (f : string) : bool := ends_with ".png" (lower f).

Record Sheet : Type := mkSheet
  { sheet_w : Z; sheet_h : Z; placed : list AtlasEntry; atlas : string }.

(** What a packing function does: an exception, the early [return] after
    [print(f"  No PNGs found in ...")], or the saved sheet and atlas. *)
Inductive PackResult : Type :=
| Raised
| NoPngs
| Saved (sheet : Sheet).

(** The loop [for idx, ... in enumerate(...)], which both packing
    functions hold in the same words, over the names of the icons in
    collection order. *)
Definition place_all (cols w h : Z) (names : list string) : list AtlasEntry :=
  map (fun '(idx, name) =>
         let col := idx mod cols in
         let row := idx / cols in
         let x := col * w in
         let y := row * h in
         mkEntry name x y w h)
      (enumerate names).

(** From [if not files: ... return] to the end of either function. *)
Definition pack (names : list string) (png_name : string)
    (icon_size : Z * Z) : PackResult :=
  match names with
  | [] => NoPngs
  | _ :: _ =>
      let count := Z.of_nat (List.length names) in
      let cols := ceil_sqrt count in
      let rows := ceil_div count cols in
      let (w, h) := icon_size in
      let sheet_w := cols * w in
      let sheet_h := rows * h in
      let entries := place_all cols w h names in
      Saved (mkSheet sheet_w sheet_h entries
               (atlas_text png_name count sheet_w sheet_h w h
                  (map atlas_line entries)))
  end.

(** The collected sequence of [create_spritesheet_from_dir]. *)
Definition collect_dir (listing : list string) : option (list string) :=
  sorted natural_sort_key key_lt (filter is_png listing).

Definition create_spritesheet_from_dir (listing : list string)
    (png_name : string) (icon_size : Z * Z)
    (name_fn : option (string -> string)) : PackResult :=
  match collect_dir listing with
  | None => Raised
  | Some files =>
      let name_of fname :=
        match name_fn with
        | Some f => f fname
        | None => splitext_root fname
        end in
      pack (map name_of files) png_name icon_size
  end.

(** The collected sequence of [create_spritesheet_from_categorized_dirs]:
    [subdir category] is the listing of [cat_dir], [None] when it is not a
    directory. *)
Fixpoint collect_categories (subdir : string -> option (list string))
    (categories : list string) : option (list string) :=
  match categories with
  | [] => Some []
  | category :: rest =>
      match subdir category with
      | None => collect_categories subdir rest
      | Some listing =>
          match sorted natural_sort_key key_lt listing with
          | None => None
          | Some fnames =>
              option_map
                (app (map (fun fname => category ++ "/" ++ splitext_root fname)
                          (filter is_png fnames)))
                (collect_categories subdir rest)
          end
      end
  end.

Definition create_spritesheet_from_categorized_dirs (base_dir : list string)
    (subdir : string -> option (list string)) (png_name : string)
    (icon_size : Z * Z) : PackResult :=
  match sorted (fun c => c) str_lt base_dir with
  | None => Raised
  | Some categories =>
      match collect_categories subdir categories with
      | None => Raised
      | Some names => pack names png_name icon_size
      end
  end.

(** ** Shapes of label lines *)

(** The first character is there and is no white space. *)
Definition head_ok (s : string) : bool :=
  match s with
  | EmptyString => false
  | String c _ => negb (is_space c)
  end.

(** The last character is there and is no white space. *)
Fixpoint last_ok (s : string) : bool :=
  match s with
  | EmptyString => false
  | String c EmptyString => negb (is_space c)
  | String _ s' => last_ok s'
  end.

(** A line as [all_lines] holds them: stripped, not empty, on one line. *)
Definition trimmed (l : string) : Prop :=
  head_ok l = true /\ last_ok l = true /\ all_chars not_nl l = true.

(** A line of a text file: no line feed but, possibly, at its end. *)
Fixpoint nl_only_last (s : string) : bool :=
  match s with
  | EmptyString => true
  | String c EmptyString => true
  | String c s' => not_nl c && nl_only_last s'
  end.

(** [p] fails on the first character of [s], if there is one. *)
Definition stops (p : ascii -> bool) (s : string) : Prop :=
  match s with
  | EmptyString => True
  | String c _ => p c = false
  end.

(** White space: at least one character, all of them white space. *)
Definition spaces (ws : string) : Prop :=
  nonempty ws = true /\ all_chars is_space ws = true.

(** [<integer>.<lowercase letter>], whatever follows. *)
Definition GridPrefix (l : string) : Prop :=
  exists ds c rest,
    l = ds ++ String "." (String c rest)
    /\ isdigit ds = true /\ is_lower c = true.

(** [<integer>.<single-lowercase-letter>[.]?<space><label-text>] *)
Definition GridShape (l ds : string) (c : ascii) (label : string) : Prop :=
  exists dot ws,
    l = ds ++ String "." (String c (dot ++ ws ++ label))
    /\ isdigit ds = true /\ is_lower c = true
    /\ (dot = "" \/ dot = ".")
    /\ spaces ws /\ head_ok label = true.

(** [<integer>.<space><label-text>] *)
Definition RowShape (l ds label : string) : Prop :=
  exists ws,
    l = ds ++ String "." (ws ++ label)
    /\ isdigit ds = true /\ spaces ws /\ head_ok label = true.

Definition IsGridRef (l : string) : Prop :=
  exists ds c label, GridShape l ds c label.

Definition IsRowLabel (l : string) : Prop :=
  exists ds label, RowShape l ds label.

(** ** The order of the natural keys *)

(** [key(a) < key(b)] holds. *)
Definition natural_lt (a b : string) : Prop :=
  key_lt (natural_sort_key a) (natural_sort_key b) = Some true.

(** [key(b) < key(a)] does not hold: [a] stays before [b] in [sorted]. *)
Definition natural_le (a b : string) : Prop :=
  key_lt (natural_sort_key b) (natural_sort_key a) = Some false.

Definition not_digit (c : ascii) : bool := negb (is_digit c).

(** A text without a digit. *)
Definition digit_free (t : string) : Prop := all_chars not_digit t = true.

(** The parts of a split name: a text without digits, then a digit run
    and a text without digits, any number of times.  [text_next] tells
    that a text is due; a list may only end after a text. *)
Fixpoint runs (text_next : bool) (parts : list string) : bool :=
  match parts with
  | [] => negb text_next
  | p :: rest =>
      if text_next then all_chars not_digit p && runs false rest
      else isdigit p && runs true rest
  end.

(** The same alternation on a key: a [str], then an [int] and a [str],
    any number of times. *)
Fixpoint alternates (str_next : bool) (k : list key_part) : bool :=
  match k with
  | [] => negb str_next
  | KStr _ :: rest => str_next && alternates false rest
  | KInt _ :: rest => negb str_next && alternates true rest
  end.

(** ** The canvas invariant *)

(** [x+w <= canvasWidth] and [y+h <= canvasHeight] *)
Definition InCanvas (canvas_w canvas_h : Z) (e : AtlasEntry) : Prop :=
  x e + w e <= canvas_w /\ y e + h e <= canvas_h.

(** ** Cells and ties *)

(** The top-left corner of a record. *)
Definition corner (e : AtlasEntry) : Z * Z := (x e, y e).

(** The corners of the cells of a grid of [cols] by [rows] cells of [w]
    by [h] pixels, row after row, each row from left to right. *)
Definition grid_cells (cols rows w h : Z) : list (Z * Z) :=
  flat_map (fun r => map (fun c => (c * w, r * h)) (range cols))
           (range rows).

(** Two records do not share a pixel. *)
Definition apart (e1 e2 : AtlasEntry) : Prop :=
  x e1 + w e1 <= x e2 \/ x e2 + w e2 <= x e1
  \/ y e1 + h e1 <= y e2 \/ y e2 + h e2 <= y e1.

(** Neither key is smaller than the other: [sorted] leaves the two names
    in the order it found them. *)
Definition tie (a b : string) : bool :=
  match key_lt (natural_sort_key a) (natural_sort_key b),
        key_lt (natural_sort_key b) (natural_sort_key a) with
  | Some false, Some false => true
  | _, _ => false
  end.

(** The names that one turn of [for category in ...] appends: none for
    an entry that is no directory. *)
Definition category_icons (subdir : string -> option (list string))
    (category : string) : list string :=
  match subdir category with
  | Some listing =>
      match sorted natural_sort_key key_lt listing with
      | Some fnames =>
          map (fun fname => category ++ "/" ++ splitext_root fname)
              (filter is_png fnames)
      | None => []
      end
  | None => []
  end.

(** [not (b < a)] on strings, the order [sorted] leaves the categories
    in. *)
Definition str_le (a b : string) : Prop := String.ltb b a = false.

(** No carriage return. *)
Definition not_cr (c : ascii) : bool := negb (code c =? 13)%N.

(** [x is not None] *)
Definition is_some {A : Type} (o : option A) : bool :=
  match o with Some _ => true | None => false end.

(** * Properties *)

(** ** Characters *)

#[local] Arguments is_digit : simpl never.
#[local] Arguments is_space : simpl never.
#[local] Arguments is_lower : simpl never.
#[local] Arguments is_dot : simpl never.
#[local] Arguments not_nl : simpl never.
#[local] Arguments not_digit : simpl never.

Ltac char_facts :=
  unfold is_digit, is_lower, is_upper, is_space, is_dot, is_nl, not_nl,
    between in *;
  repeat match goal with
         | H : _ && _ = true |- _ => apply andb_prop in H; destruct H
         | H : _ || _ = true |- _ => apply orb_prop in H; destruct H
         | H : (_ <=? _)%N = true |- _ => apply N.leb_le in H
         | H : (_ =? _)%N = true |- _ => apply N.eqb_eq in H
         | H : negb _ = true |- _ => apply negb_true_iff in H
         | H : (_ =? _)%N = false |- _ => apply N.eqb_neq in H
         end;
  repeat first
    [ rewrite andb_false_iff | rewrite orb_false_iff | rewrite andb_true_iff
    | rewrite orb_true_iff | rewrite negb_true_iff | rewrite negb_false_iff
    | rewrite N.leb_gt | rewrite N.leb_le | rewrite N.eqb_neq
    | rewrite N.eqb_eq ];
  try lia.

Lemma is_dot_eq (c : ascii) : is_dot c = true -> c = "."%char.
Proof.
  unfold is_dot, code. intros H. apply N.eqb_eq in H.
  rewrite <- (ascii_N_embedding c), H. reflexivity.
Qed.

Lemma dot_not_digit (c : ascii) : is_dot c = true -> is_digit c = false.
Proof. intros H. char_facts. Qed.

Lemma dot_not_space (c : ascii) : is_dot c = true -> is_space c = false.
Proof. intros H. char_facts. Qed.

Lemma nl_is_space (c : ascii) : not_nl c = false -> is_space c = true.
Proof.
  unfold not_nl, is_nl, is_space, between. intros H.
  apply negb_false_iff, N.eqb_eq in H. rewrite H. reflexivity.
Qed.

(** ** Strings *)

Lemma append_nil_r (s : string) : s ++ "" = s.
Proof. induction s as [|c s IH]; simpl; [reflexivity | now rewrite IH]. Qed.

Lemma append_assoc (a b c : string) : (a ++ b) ++ c = a ++ (b ++ c).
Proof. induction a as [|x a IH]; simpl; [reflexivity | now rewrite IH]. Qed.

Lemma all_chars_app (p : ascii -> bool) (a b : string) :
  all_chars p (a ++ b) = all_chars p a && all_chars p b.
Proof.
  induction a as [|c a IH]; simpl; [reflexivity|].
  now rewrite IH, andb_assoc.
Qed.

Lemma span_eq (p : ascii -> bool) (s a b : string) :
  span p s = (a, b) -> s = a ++ b /\ all_chars p a = true /\ stops p b.
Proof.
  revert a b. induction s as [|c s IH]; simpl; intros a b H.
  - inversion H; subst. repeat split.
  - destruct (p c) eqn:Hc.
    + destruct (span p s) as [a' b'] eqn:Hs. inversion H; subst.
      destruct (IH a' b eq_refl) as (-> & Ha & Hb).
      repeat split; simpl; [now rewrite Hc, Ha | exact Hb].
    + inversion H; subst. repeat split. exact Hc.
Qed.

Lemma span_app (p : ascii -> bool) (a b : string) :
  all_chars p a = true -> stops p b -> span p (a ++ b) = (a, b).
Proof.
  induction a as [|c a IH]; simpl; intros Ha Hb.
  - destruct b as [|c b]; simpl in *; [reflexivity | now rewrite Hb].
  - apply andb_prop in Ha. destruct Ha as [Hc Ha].
    now rewrite Hc, (IH Ha Hb).
Qed.

Lemma span_all (p : ascii -> bool) (s : string) :
  all_chars p s = true -> span p s = (s, "").
Proof.
  intros H. rewrite <- (append_nil_r s) at 1. now apply span_app.
Qed.

Lemma last_ok_app (a b : string) :
  nonempty b = true -> last_ok (a ++ b) = last_ok b.
Proof.
  intros Hb. induction a as [|c a IH]; simpl; [reflexivity|].
  rewrite IH. destruct (a ++ b) eqn:E; [|reflexivity].
  destruct a; simpl in E; [subst b; discriminate | discriminate].
Qed.

Lemma last_ok_cons (c : ascii) (s : string) :
  nonempty s = true -> last_ok (String c s) = last_ok s.
Proof. destruct s; [discriminate | reflexivity]. Qed.

Lemma last_ok_not_spaces (s : string) :
  last_ok s = true -> all_chars is_space s = true -> False.
Proof.
  induction s as [|c s IH]; simpl; [discriminate|].
  intros Hl Ha. apply andb_prop in Ha. destruct Ha as [Hc Ha].
  destruct s; [rewrite Hc in Hl; discriminate | auto].
Qed.

Lemma head_ok_nonempty (s : string) : head_ok s = true -> nonempty s = true.
Proof. destruct s; [discriminate | reflexivity]. Qed.

Lemma head_ok_stops (s : string) : head_ok s = true -> stops is_space s.
Proof.
  destruct s; simpl; [trivial|]. intros H. now apply negb_true_iff in H.
Qed.

(** *** Stripping *)

Lemma lstrip_head (s : string) : lstrip s = "" \/ head_ok (lstrip s) = true.
Proof.
  induction s as [|c s IH]; simpl; [now left|].
  destruct (is_space c) eqn:Hc; [exact IH|].
  right. simpl. now rewrite Hc.
Qed.

Lemma rstrip_last (s : string) : rstrip s = "" \/ last_ok (rstrip s) = true.
Proof.
  induction s as [|c s IH]; simpl; [now left|].
  destruct (rstrip s) as [|c' r] eqn:Hr.
  - destruct (is_space c) eqn:Hc; [now left|].
    right. simpl. now rewrite Hc.
  - right. destruct IH as [IH|IH]; [discriminate|].
    rewrite last_ok_cons; [exact IH | reflexivity].
Qed.

Lemma rstrip_head (s : string) :
  head_ok s = true -> head_ok (rstrip s) = true.
Proof.
  destruct s as [|c s]; simpl; [discriminate|]. intros Hc.
  destruct (rstrip s); [|exact Hc].
  apply negb_true_iff in Hc. rewrite Hc. simpl. now rewrite Hc.
Qed.

Lemma lstrip_fix (s : string) : head_ok s = true -> lstrip s = s.
Proof.
  destruct s as [|c s]; simpl; [reflexivity|].
  intros H. apply negb_true_iff in H. now rewrite H.
Qed.

Lemma rstrip_fix (s : string) : last_ok s = true -> rstrip s = s.
Proof.
  induction s as [|c s IH]; simpl; [reflexivity|].
  destruct s as [|c' s'].
  - simpl. intros H. apply negb_true_iff in H. now rewrite H.
  - intros H. rewrite (IH H). reflexivity.
Qed.

Lemma strip_fix (s : string) :
  head_ok s = true -> last_ok s = true -> strip s = s.
Proof.
  intros Hh Hl. unfold strip. rewrite (lstrip_fix s Hh). now apply rstrip_fix.
Qed.

Lemma nl_only_last_lstrip (s : string) :
  nl_only_last s = true -> nl_only_last (lstrip s) = true.
Proof.
  induction s as [|c s IH]; simpl; [reflexivity|].
  intros H. destruct (is_space c); [|exact H].
  apply IH. destruct s; [reflexivity|].
  apply andb_prop in H. tauto.
Qed.

Lemma nl_only_last_rstrip (s : string) :
  nl_only_last s = true -> all_chars not_nl (rstrip s) = true.
Proof.
  induction s as [|c s IH]; [reflexivity|].
  intros H. cbn [rstrip].
  destruct s as [|c' s'].
  - simpl. destruct (is_space c) eqn:Hc; [reflexivity|].
    simpl. destruct (not_nl c) eqn:Hn; [reflexivity|].
    apply nl_is_space in Hn. congruence.
  - cbn [nl_only_last] in H. apply andb_prop in H. destruct H as [Hc H].
    specialize (IH H). revert IH.
    destruct (rstrip (String c' s')) as [|c'' r]; intros IH.
    + destruct (is_space c); simpl; [reflexivity | now rewrite Hc].
    + change (not_nl c && all_chars not_nl (String c'' r) = true).
      now rewrite Hc, IH.
Qed.

Lemma file_lines_nl (t : string) :
  Forall (fun l => nl_only_last l = true) (file_lines t).
Proof.
  induction t as [|c t IH]; simpl; [constructor|].
  destruct (is_nl c) eqn:Hc.
  - constructor; [reflexivity | exact IH].
  - destruct (file_lines t) as [|l ls]; [repeat constructor|].
    inversion IH; subst. constructor; [|assumption].
    destruct l; [reflexivity|].
    cbn [nl_only_last]. unfold not_nl. now rewrite Hc.
Qed.

(** Every line of [all_lines] is stripped, not empty and on one line. *)
Lemma strip_nonempty_trimmed (ls : list string) (l : string) :
  Forall (fun l => nl_only_last l = true) ls ->
  In l (strip_nonempty ls) -> trimmed l.
Proof.
  intros Hls Hin. unfold strip_nonempty in Hin.
  apply in_map_iff in Hin. destruct Hin as (l0 & <- & Hin).
  apply filter_In in Hin. destruct Hin as [Hin Hne].
  rewrite Forall_forall in Hls. specialize (Hls l0 Hin).
  unfold strip in *.
  destruct (lstrip_head l0) as [E|Hh]; [rewrite E in Hne; discriminate|].
  destruct (rstrip_last (lstrip l0)) as [E|Hl];
    [rewrite E in Hne; discriminate|].
  repeat split; [now apply rstrip_head | exact Hl|].
  now apply nl_only_last_rstrip, nl_only_last_lstrip.
Qed.

Lemma read_label_lines_trimmed (text l : string) :
  In l (read_label_lines text) -> trimmed l.
Proof. apply strip_nonempty_trimmed, file_lines_nl. Qed.

(** ** The matchers against the line shapes *)

Lemma digits1_app (ds rest : string) :
  isdigit ds = true -> stops is_digit rest ->
  digits1 (ds ++ rest) = Some (ds, rest).
Proof.
  unfold isdigit, digits1. intros H Hr.
  apply andb_prop in H. destruct H as [Hne Hd].
  now rewrite (span_app _ _ _ Hd Hr), Hne.
Qed.

Lemma digits1_eq (l ds rest : string) :
  digits1 l = Some (ds, rest) ->
  l = ds ++ rest /\ isdigit ds = true /\ stops is_digit rest.
Proof.
  unfold digits1, isdigit. destruct (span is_digit l) as [a b] eqn:Hs.
  destruct (nonempty a) eqn:Hne; [|discriminate].
  intros H. inversion H; subst.
  destruct (span_eq _ _ _ _ Hs) as (-> & Ha & Hb).
  now rewrite Hne, Ha.
Qed.

Lemma stops_digit_dot (s : string) : stops is_digit (String "." s).
Proof. reflexivity. Qed.

(** On the tail of a stripped line [\s+(.+)$] does not backtrack: the
    label is what follows the white space. *)
Lemma ws_plus_label_tail (s : string) :
  last_ok s = true -> all_chars not_nl s = true ->
  ws_plus_label s =
    let (ws, g) := span is_space s in if nonempty ws then Some g else None.
Proof.
  induction s as [|c s IH]; [discriminate|].
  intros Hl Hn. cbn [ws_plus_label span].
  destruct (is_space c) eqn:Hc; [|reflexivity].
  destruct s as [|c' s'].
  - simpl in Hl. rewrite Hc in Hl. discriminate.
  - change (all_chars not_nl (String c (String c' s')))
      with (not_nl c && all_chars not_nl (String c' s')) in Hn.
    apply andb_prop in Hn. destruct Hn as [_ Hn].
    rewrite last_ok_cons in Hl by reflexivity.
    rewrite (IH Hl Hn).
    destruct (span is_space (String c' s')) as [ws g] eqn:Hs.
    cbn [nonempty]. destruct (nonempty ws) eqn:Hw; [reflexivity|].
    destruct ws; [|discriminate].
    destruct (span_eq _ _ _ _ Hs) as (E & _ & _). simpl in E. subst g.
    unfold dot_plus_eol. rewrite (span_all _ _ Hn). reflexivity.
Qed.

Lemma ws_plus_label_app (ws label : string) :
  spaces ws -> head_ok label = true ->
  last_ok (ws ++ label) = true -> all_chars not_nl (ws ++ label) = true ->
  ws_plus_label (ws ++ label) = Some label.
Proof.
  intros [Hne Hws] Hh Hl Hn.
  rewrite (ws_plus_label_tail _ Hl Hn).
  rewrite (span_app _ _ _ Hws (head_ok_stops _ Hh)). now rewrite Hne.
Qed.

Lemma ws_plus_label_inv (s g : string) :
  last_ok s = true -> all_chars not_nl s = true ->
  ws_plus_label s = Some g ->
  exists ws, s = ws ++ g /\ spaces ws /\ head_ok g = true.
Proof.
  intros Hl Hn. rewrite (ws_plus_label_tail _ Hl Hn).
  destruct (span is_space s) as [ws g'] eqn:Hs.
  destruct (nonempty ws) eqn:Hne; [|discriminate].
  intros H. inversion H; subst g'.
  destruct (span_eq _ _ _ _ Hs) as (-> & Hws & Hg).
  exists ws. repeat split; try assumption.
  destruct g as [|c g]; simpl in *.
  - rewrite append_nil_r in Hl. now destruct (last_ok_not_spaces _ Hl Hws).
  - now rewrite Hg.
Qed.

Lemma ws_plus_label_nonempty (s : string) :
  ws_plus_label s <> None -> nonempty s = true.
Proof. destruct s; [intros H; now destruct H | reflexivity]. Qed.

(** What a stripped line passes on to a tail of it. *)
Lemma trimmed_tail (a b : string) :
  trimmed (a ++ b) -> nonempty b = true ->
  last_ok b = true /\ all_chars not_nl b = true.
Proof.
  intros (_ & Hl & Hn) Hb.
  rewrite last_ok_app in Hl by exact Hb.
  rewrite all_chars_app in Hn. apply andb_prop in Hn. tauto.
Qed.

Lemma match_row_col_iff (l : string) :
  match_row_col l = true <-> GridPrefix l.
Proof.
  unfold match_row_col, GridPrefix. split.
  - destruct (digits1 l) as [[ds rest]|] eqn:Hd; [|discriminate].
    destruct rest as [|d [|c rest]]; try discriminate.
    intros H. apply andb_prop in H. destruct H as [Hdot Hc].
    apply is_dot_eq in Hdot. subst d.
    destruct (digits1_eq _ _ _ Hd) as (-> & Hds & _).
    now exists ds, c, rest.
  - intros (ds & c & rest & -> & Hds & Hc).
    rewrite (digits1_app _ _ Hds (stops_digit_dot _)). now rewrite Hc.
Qed.

Lemma match_row_line_iff (l ds label : string) :
  trimmed l ->
  match_row_line l = Some (ds, label) <-> RowShape l ds label.
Proof.
  intros Ht. unfold match_row_line, RowShape. split.
  - destruct (digits1 l) as [[ds' rest]|] eqn:Hd; [|discriminate].
    destruct rest as [|d rest]; [discriminate|].
    destruct (is_dot d) eqn:Hdot; [|discriminate].
    destruct (ws_plus_label rest) as [g|] eqn:Hw; [|discriminate].
    intros H. inversion H; subst ds' g. clear H.
    apply is_dot_eq in Hdot. subst d.
    destruct (digits1_eq _ _ _ Hd) as (-> & Hds & _).
    assert (Hne : nonempty rest = true)
      by (apply ws_plus_label_nonempty; congruence).
    change (ds ++ String "." rest) with (ds ++ ("." ++ rest)) in Ht.
    rewrite <- append_assoc in Ht.
    destruct (trimmed_tail _ _ Ht Hne) as [Hl Hn].
    destruct (ws_plus_label_inv _ _ Hl Hn Hw) as (ws & -> & Hws & Hh).
    now exists ws.
  - intros (ws & -> & Hds & Hws & Hh).
    rewrite (digits1_app _ _ Hds (stops_digit_dot _)).
    change (is_dot ".") with true. cbv iota.
    change (ds ++ String "." (ws ++ label))
      with (ds ++ ("." ++ (ws ++ label))) in Ht.
    rewrite <- append_assoc in Ht.
    assert (Hne : nonempty (ws ++ label) = true).
    { destruct Hws as [Hne _]. destruct ws; [discriminate | reflexivity]. }
    destruct (trimmed_tail _ _ Ht Hne) as [Hl Hn].
    now rewrite (ws_plus_label_app _ _ Hws Hh Hl Hn).
Qed.

Lemma match_row_num_iff (l : string) :
  trimmed l -> match_row_num l = true <-> IsRowLabel l.
Proof.
  intros Ht. unfold IsRowLabel. split.
  - unfold match_row_num.
    destruct (digits1 l) as [[ds rest]|] eqn:Hd; [|discriminate].
    destruct rest as [|d [|c rest]]; try discriminate.
    intros H. apply andb_prop in H. destruct H as [Hdot Hc].
    assert (Hm : match_row_line l <> None).
    { unfold match_row_line. rewrite Hd, Hdot.
      apply is_dot_eq in Hdot. subst d.
      destruct (digits1_eq _ _ _ Hd) as (-> & Hds & _).
      change (ds ++ String "." (String c rest))
        with (ds ++ ("." ++ String c rest)) in Ht.
      rewrite <- append_assoc in Ht.
      destruct (trimmed_tail _ _ Ht eq_refl) as [Hl Hn].
      rewrite (ws_plus_label_tail _ Hl Hn).
      cbn [span]. rewrite Hc.
      destruct (span is_space rest). discriminate. }
    destruct (match_row_line l) as [[ds' label]|] eqn:E; [|congruence].
    exists ds', label. now apply match_row_line_iff.
  - intros (ds & label & ws & -> & Hds & [Hne Hws] & Hh).
    unfold match_row_num.
    rewrite (digits1_app _ _ Hds (stops_digit_dot _)).
    destruct ws as [|c ws]; [discriminate|].
    simpl in Hws. apply andb_prop in Hws. destruct Hws as [Hc _].
    simpl. exact Hc.
Qed.

Lemma opt_dot_ws_label_inv (s g : string) :
  last_ok s = true -> all_chars not_nl s = true ->
  opt_dot_ws_label s = Some g ->
  exists dot ws,
    s = dot ++ ws ++ g /\ (dot = "" \/ dot = ".") /\ spaces ws
    /\ head_ok g = true.
Proof.
  intros Hl Hn. unfold opt_dot_ws_label.
  destruct s as [|d s']; [discriminate|].
  destruct (is_dot d) eqn:Hdot.
  - assert (Hd : ws_plus_label (String d s') = None)
      by (simpl; now rewrite (dot_not_space _ Hdot)).
    rewrite Hd. destruct (ws_plus_label s') as [g'|] eqn:Hw; [|discriminate].
    intros H. inversion H; subst g'. clear H.
    assert (Hne : nonempty s' = true)
      by (apply ws_plus_label_nonempty; congruence).
    rewrite last_ok_cons in Hl by exact Hne.
    simpl in Hn. apply andb_prop in Hn. destruct Hn as [_ Hn].
    destruct (ws_plus_label_inv _ _ Hl Hn Hw) as (ws & -> & Hws & Hh).
    apply is_dot_eq in Hdot. subst d.
    exists ".", ws. repeat split; auto; apply Hws.
  - intros Hw.
    destruct (ws_plus_label_inv _ _ Hl Hn Hw) as (ws & E & Hws & Hh).
    exists "", ws. repeat split; auto; apply Hws.
Qed.

Lemma opt_dot_ws_label_app (dot ws label : string) :
  (dot = "" \/ dot = ".") -> spaces ws -> head_ok label = true ->
  last_ok (ws ++ label) = true -> all_chars not_nl (ws ++ label) = true ->
  opt_dot_ws_label (dot ++ ws ++ label) = Some label.
Proof.
  intros Hdot Hws Hh Hl Hn.
  pose proof (ws_plus_label_app _ _ Hws Hh Hl Hn) as Hw.
  destruct Hdot as [-> | ->].
  - simpl. unfold opt_dot_ws_label.
    destruct (ws ++ label) as [|d s'] eqn:E; [exact Hw|].
    destruct (is_dot d) eqn:Hd; [|exact Hw].
    simpl in Hw. now rewrite (dot_not_space _ Hd) in Hw.
  - simpl. unfold opt_dot_ws_label.
    change (is_dot ".") with true. cbv iota. now rewrite Hw.
Qed.

Lemma match_grid_line_iff (l ds : string) (c : ascii) (label : string) :
  trimmed l ->
  match_grid_line l = Some (ds, c, label) <-> GridShape l ds c label.
Proof.
  intros Ht. unfold match_grid_line, GridShape. split.
  - destruct (digits1 l) as [[ds' rest]|] eqn:Hd; [|discriminate].
    destruct rest as [|d [|c' rest]]; try discriminate.
    destruct (is_dot d && is_lower c') eqn:Hdc; [|discriminate].
    destruct (opt_dot_ws_label rest) as [g|] eqn:Hw; [|discriminate].
    intros H. inversion H; subst ds' c' g. clear H.
    apply andb_prop in Hdc. destruct Hdc as [Hdot Hc].
    apply is_dot_eq in Hdot. subst d.
    destruct (digits1_eq _ _ _ Hd) as (-> & Hds & _).
    assert (Hne : nonempty rest = true).
    { destruct rest; [discriminate | reflexivity]. }
    change (ds ++ String "." (String c rest))
      with (ds ++ (String "." (String c "") ++ rest)) in Ht.
    rewrite <- append_assoc in Ht.
    destruct (trimmed_tail _ _ Ht Hne) as [Hl Hn].
    destruct (opt_dot_ws_label_inv _ _ Hl Hn Hw)
      as (dot & ws & -> & Hdot & Hws & Hh).
    now exists dot, ws.
  - intros (dot & ws & -> & Hds & Hc & Hdot & Hws & Hh).
    rewrite (digits1_app _ _ Hds (stops_digit_dot _)).
    change (is_dot ".") with true. rewrite Hc. cbv iota. simpl andb. cbv iota.
    assert (Hne : nonempty (ws ++ label) = true).
    { destruct Hws as [Hne _]. destruct ws; [discriminate | reflexivity]. }
    assert (E : ds ++ String "." (String c (dot ++ ws ++ label))
                = (ds ++ String "." (String c dot)) ++ (ws ++ label)).
    { rewrite append_assoc. reflexivity. }
    rewrite E in Ht.
    destruct (trimmed_tail _ _ Ht Hne) as [Hl Hn].
    now rewrite (opt_dot_ws_label_app _ _ _ Hdot Hws Hh Hl Hn).
Qed.

(** ** Classification of the label file *)

Lemma existsb_match (f : string -> bool) (P : string -> Prop)
    (ls : list string) :
  (forall l, In l ls -> f l = true <-> P l) ->
  existsb f ls = true <-> exists l, In l ls /\ P l.
Proof.
  intros H. rewrite existsb_exists. split; intros (l & Hin & Hl);
    exists l; (split; [exact Hin | now apply (H l Hin)]).
Qed.

Lemma has_row_col_iff (ls : list string) :
  has_row_col ls = true <-> exists l, In l ls /\ GridPrefix l.
Proof. apply existsb_match. intros l _. apply match_row_col_iff. Qed.

Lemma has_row_num_iff (text : string) :
  has_row_num (read_label_lines text) = true
  <-> exists l, In l (read_label_lines text) /\ IsRowLabel l.
Proof.
  apply existsb_match. intros l Hin.
  apply match_row_num_iff, (read_label_lines_trimmed text l Hin).
Qed.

Lemma grid_shape_prefix (l : string) : IsGridRef l -> GridPrefix l.
Proof.
  intros (ds & c & label & dot & ws & -> & Hds & Hc & _).
  now exists ds, c, (dot ++ ws ++ label).
Qed.

(** C1, as the code has it: the file is GridRef as soon as one line begins
    with [<integer>.<lowercase letter>], whatever follows on that line;
    it is RowLabel when no line begins so and one line has the shape
    [<integer>.<space><label-text>]; it is PlainLabel otherwise.  A line of
    the full GridRef shape begins so. *)
Theorem label_format_classification (text : string) :
  (label_format (read_label_lines text) = GridRef
   <-> exists l, In l (read_label_lines text) /\ GridPrefix l)
  /\ (label_format (read_label_lines text) = RowLabel
      <-> ~ (exists l, In l (read_label_lines text) /\ GridPrefix l)
          /\ exists l, In l (read_label_lines text) /\ IsRowLabel l)
  /\ (label_format (read_label_lines text) = PlainLabel
      <-> ~ (exists l, In l (read_label_lines text) /\ GridPrefix l)
          /\ ~ (exists l, In l (read_label_lines text) /\ IsRowLabel l))
  /\ (forall l, IsGridRef l -> GridPrefix l).
Proof.
  pose proof (has_row_col_iff (read_label_lines text)) as Hc.
  pose proof (has_row_num_iff text) as Hn.
  unfold label_format.
  destruct (has_row_col (read_label_lines text));
    destruct (has_row_num (read_label_lines text));
    (split; [|split; [|split; [|apply grid_shape_prefix]]]);
    intuition congruence.
Qed.

(** C1, as stated, fails: no line of this file has either shape, and the
    file is GridRef, not PlainLabel. *)
Lemma label_format_not_by_shape :
  label_format (read_label_lines "1.abc") = GridRef
  /\ ~ (exists l, In l (read_label_lines "1.abc")
                  /\ (IsGridRef l \/ IsRowLabel l)).
Proof.
  split; [reflexivity|].
  intros (l & Hin & H).
  pose proof (read_label_lines_trimmed _ _ Hin) as Ht.
  vm_compute in Hin. destruct Hin as [<- | []].
  destruct H as [(ds & c & label & H) | H].
  - apply (match_grid_line_iff _ _ _ _ Ht) in H. discriminate.
  - apply (match_row_num_iff _ Ht) in H. discriminate.
Qed.

(** ** Records of the three formats *)

Lemma range_In (n c : Z) : In c (range n) <-> 0 <= c < n.
Proof.
  unfold range. rewrite in_map_iff. split.
  - intros (k & <- & Hk). apply in_seq in Hk. lia.
  - intros H. exists (Z.to_nat c). split; [lia|]. apply in_seq. lia.
Qed.

Lemma range_length (n : Z) : List.length (range n) = Z.to_nat n.
Proof. unfold range. now rewrite length_map, length_seq. Qed.

Lemma letter_index_nth (k : Z) :
  0 <= k < 26 ->
  is_lower (ascii_of_N (Z.to_N (97 + k))) = true
  /\ letter_index (ascii_of_N (Z.to_N (97 + k))) = k.
Proof.
  intros Hk. unfold letter_index, is_lower, between, code.
  rewrite N_ascii_embedding by lia.
  split; [|lia].
  apply andb_true_intro. split; apply N.leb_le; lia.
Qed.

Lemma grid_line_shape (tile_size : Z) (l ds : string) (c : ascii)
    (label : string) :
  trimmed l -> GridShape l ds c label ->
  grid_line tile_size l =
    [mkEntry label (letter_index c * tile_size) ((int ds - 1) * tile_size)
       tile_size tile_size].
Proof.
  intros Ht Hs. unfold grid_line.
  rewrite (proj2 (match_grid_line_iff _ _ _ _ Ht) Hs).
  destruct Hs as (dot & ws & E & _ & _ & _ & Hws & Hh).
  assert (Hl : last_ok label = true).
  { subst l.
    assert (E : ds ++ String "." (String c (dot ++ ws ++ label))
                = (ds ++ String "." (String c (dot ++ ws))) ++ label).
    { rewrite !append_assoc. simpl. now rewrite !append_assoc. }
    rewrite E in Ht.
    apply (trimmed_tail _ _ Ht (head_ok_nonempty _ Hh)). }
  now rewrite (strip_fix _ Hh Hl).
Qed.

Lemma grid_line_no_shape (tile_size : Z) (l : string) :
  trimmed l -> ~ IsGridRef l -> grid_line tile_size l = [].
Proof.
  intros Ht Hn. unfold grid_line.
  destruct (match_grid_line l) as [[[ds c] label]|] eqn:E; [|reflexivity].
  destruct Hn. exists ds, c, label. now apply match_grid_line_iff.
Qed.

Lemma sheet_entries_grid (tile_size sheet_w sheet_h : Z) (ls : list string) :
  label_format ls = GridRef ->
  sheet_entries tile_size sheet_w sheet_h ls
  = flat_map (grid_line tile_size) ls.
Proof.
  unfold sheet_entries, label_format.
  destruct (has_row_col ls); [reflexivity|].
  destruct (has_row_num ls); discriminate.
Qed.

Lemma sheet_entries_row (tile_size sheet_w sheet_h : Z) (ls : list string) :
  label_format ls = RowLabel ->
  sheet_entries tile_size sheet_w sheet_h ls
  = flat_map (row_line tile_size (sheet_w / tile_size)) ls.
Proof.
  unfold sheet_entries, label_format.
  destruct (has_row_col ls); [discriminate|].
  destruct (has_row_num ls); [reflexivity | discriminate].
Qed.

(** C7: in a file classified GridRef the records are those of the lines,
    in order; a line of the GridRef shape gives the single record with the
    label text as name, at column [letter - 'a'] and row [integer - 1],
    one tile wide and high; any other line gives none.  The letter of
    rank [k] in the alphabet, counted from 0, is column [k]. *)
Theorem gridref_records (tile_size sheet_w sheet_h : Z) (text : string) :
  label_format (read_label_lines text) = GridRef ->
  sheet_entries tile_size sheet_w sheet_h (read_label_lines text)
  = flat_map (grid_line tile_size) (read_label_lines text)
  /\ (forall l, In l (read_label_lines text) ->
        (forall ds c label, GridShape l ds c label ->
           grid_line tile_size l =
             [mkEntry label (letter_index c * tile_size)
                ((int ds - 1) * tile_size) tile_size tile_size])
        /\ (~ IsGridRef l -> grid_line tile_size l = []))
  /\ (forall k, 0 <= k < 26 ->
        is_lower (ascii_of_N (Z.to_N (97 + k))) = true
        /\ letter_index (ascii_of_N (Z.to_N (97 + k))) = k)
  /\ letter_index "a" = 0 /\ letter_index "b" = 1
  /\ grid_line 32 "3.b label" = [mkEntry "label" 32 64 32 32].
Proof.
  intros Hf. split; [|split; [|split; [|repeat split]]].
  - now apply sheet_entries_grid.
  - intros l Hin. pose proof (read_label_lines_trimmed _ _ Hin) as Ht.
    split.
    + intros ds c label. now apply grid_line_shape.
    + now apply grid_line_no_shape.
  - apply letter_index_nth.
Qed.

Lemma gridref_records_witness :
  label_format (read_label_lines "3.b label") = GridRef
  /\ sheet_entries 32 64 96 (read_label_lines "3.b label")
     = [mkEntry "label" 32 64 32 32].
Proof.
  split; [reflexivity|].
  destruct (gridref_records 32 64 96 "3.b label" eq_refl) as [H _].
  rewrite H. reflexivity.
Defined.

Lemma row_line_shape (tile_size cols : Z) (l ds label : string) :
  trimmed l -> RowShape l ds label ->
  row_line tile_size cols l =
    map (fun c => mkEntry (label ++ " [frame " ++ str c ++ "]")
                    (c * tile_size) ((int ds - 1) * tile_size)
                    tile_size tile_size)
        (range cols).
Proof.
  intros Ht Hs. unfold row_line.
  rewrite (proj2 (match_row_line_iff _ _ _ Ht) Hs).
  destruct Hs as (ws & E & _ & Hws & Hh).
  assert (Hl : last_ok label = true).
  { subst l.
    assert (E : ds ++ String "." (ws ++ label)
                = (ds ++ String "." ws) ++ label).
    { rewrite !append_assoc. reflexivity. }
    rewrite E in Ht.
    apply (trimmed_tail _ _ Ht (head_ok_nonempty _ Hh)). }
  now rewrite (strip_fix _ Hh Hl).
Qed.

Lemma row_line_no_shape (tile_size cols : Z) (l : string) :
  trimmed l -> ~ IsRowLabel l -> row_line tile_size cols l = [].
Proof.
  intros Ht Hn. unfold row_line.
  destruct (match_row_line l) as [[ds label]|] eqn:E; [|reflexivity].
  destruct Hn. exists ds, label. now apply match_row_line_iff.
Qed.

(** C8: in a file classified RowLabel the records are those of the lines,
    in order; a line of the RowLabel shape gives one record per column
    [c] of [range(cols)], named ["{label} [frame {c}]"], at [c*tile_size]
    across and [(integer - 1)*tile_size] down; any other line gives none. *)
Theorem rowlabel_records (tile_size sheet_w sheet_h : Z) (text : string) :
  label_format (read_label_lines text) = RowLabel ->
  sheet_entries tile_size sheet_w sheet_h (read_label_lines text)
  = flat_map (row_line tile_size (sheet_w / tile_size))
      (read_label_lines text)
  /\ (forall cols l, In l (read_label_lines text) ->
        (forall ds label, RowShape l ds label ->
           row_line tile_size cols l =
             map (fun c => mkEntry (label ++ " [frame " ++ str c ++ "]")
                             (c * tile_size) ((int ds - 1) * tile_size)
                             tile_size tile_size)
                 (range cols)
           /\ List.length (row_line tile_size cols l) = Z.to_nat cols)
        /\ (~ IsRowLabel l -> row_line tile_size cols l = []))
  /\ (forall cols c, In c (range cols) <-> 0 <= c < cols)
  /\ row_line 16 4 "2. walk" =
       [mkEntry "walk [frame 0]" 0 16 16 16;
        mkEntry "walk [frame 1]" 16 16 16 16;
        mkEntry "walk [frame 2]" 32 16 16 16;
        mkEntry "walk [frame 3]" 48 16 16 16].
Proof.
  intros Hf. split; [|split; [|split]].
  - now apply sheet_entries_row.
  - intros cols l Hin. pose proof (read_label_lines_trimmed _ _ Hin) as Ht.
    split.
    + intros ds label Hs. rewrite (row_line_shape _ _ _ _ _ Ht Hs).
      split; [reflexivity|]. now rewrite length_map, range_length.
    + now apply row_line_no_shape.
  - apply range_In.
  - reflexivity.
Qed.

Lemma rowlabel_records_witness :
  label_format (read_label_lines "2. walk") = RowLabel
  /\ sheet_entries 16 64 32 (read_label_lines "2. walk")
     = [mkEntry "walk [frame 0]" 0 16 16 16;
        mkEntry "walk [frame 1]" 16 16 16 16;
        mkEntry "walk [frame 2]" 32 16 16 16;
        mkEntry "walk [frame 3]" 48 16 16 16].
Proof.
  split; [reflexivity|].
  destruct (rowlabel_records 16 64 32 "2. walk" eq_refl) as [H _].
  rewrite H. reflexivity.
Defined.

Lemma enumerate_seq {A : Type} (l : list A) :
  enumerate l = combine (map Z.of_nat (seq 0 (List.length l))) l.
Proof. unfold enumerate, range. now rewrite Nat2Z.id. Qed.

Lemma enumerate_In {A : Type} (l : list A) (k : Z) (a : A) :
  In (k, a) (enumerate l) -> 0 <= k < Z.of_nat (List.length l) /\ In a l.
Proof.
  unfold enumerate. intros H. split.
  - apply in_combine_l in H. now apply range_In.
  - now apply in_combine_r in H.
Qed.

Lemma length_flat_map_map {A B C : Type} (f : A -> B -> C) (la : list A)
    (lb : list B) :
  List.length (flat_map (fun a => map (f a) lb) la)
  = (List.length la * List.length lb)%nat.
Proof.
  induction la as [|a la IH]; simpl; [reflexivity|].
  now rewrite length_app, length_map, IH.
Qed.

Lemma plain_loop_from (tile_size cols rpg : Z) (lines : list string)
    (a : nat) :
  (forall l, In l lines -> trimmed l) ->
  plain_loop tile_size cols rpg (Z.of_nat a * rpg) lines
  = flat_map
      (fun '(k, label) =>
         flat_map (fun r =>
           map (fun c =>
                  mkEntry
                    (label ++ " [row " ++ str r ++ ", col " ++ str c ++ "]")
                    (c * tile_size) ((k * rpg + r) * tile_size)
                    tile_size tile_size)
               (range cols))
           (range rpg))
      (combine (map Z.of_nat (seq a (List.length lines))) lines).
Proof.
  revert a. induction lines as [|line rest IH]; intros a Ht; [reflexivity|].
  cbn [plain_loop List.length seq map combine flat_map].
  replace (Z.of_nat a * rpg + rpg) with (Z.of_nat (S a) * rpg) by lia.
  rewrite IH by (intros l Hl; apply Ht; now right).
  f_equal. unfold plain_block.
  destruct (Ht line (or_introl eq_refl)) as (Hh & Hl & _).
  now rewrite (strip_fix _ Hh Hl).
Qed.

Lemma sheet_entries_plain (tile_size sheet_w sheet_h : Z) (text : string) :
  label_format (read_label_lines text) = PlainLabel ->
  sheet_entries tile_size sheet_w sheet_h (read_label_lines text)
  = flat_map
      (fun '(k, label) =>
         flat_map (fun r =>
           map (fun c =>
                  mkEntry
                    (label ++ " [row " ++ str r ++ ", col " ++ str c ++ "]")
                    (c * tile_size)
                    ((k * (sheet_h / tile_size
                           / Z.max 1 (Z.of_nat
                               (List.length (read_label_lines text)))) + r)
                     * tile_size)
                    tile_size tile_size)
               (range (sheet_w / tile_size)))
           (range (sheet_h / tile_size
                   / Z.max 1 (Z.of_nat
                       (List.length (read_label_lines text))))))
      (enumerate (read_label_lines text)).
Proof.
  intros Hf. unfold sheet_entries. unfold label_format in Hf.
  destruct (has_row_col (read_label_lines text)); [discriminate|].
  destruct (has_row_num (read_label_lines text)); [discriminate|].
  unfold plain_lines.
  change 0 with (Z.of_nat 0 * (sheet_h / tile_size
                   / Z.max 1 (Z.of_nat (List.length (read_label_lines text))))).
  rewrite plain_loop_from by apply read_label_lines_trimmed.
  now rewrite enumerate_seq.
Qed.

(** C3: in a file classified PlainLabel, with [rows_per_group] the floor
    of [rows / max(1, label_count)], the records are, label after label in
    file order, those of the rows [r] and columns [c] of the block of the
    label, named ["{label} [row {r}, col {c}]"], at [c*tile_size] across
    and [(k*rows_per_group + r)*tile_size] down for the label of index
    [k]; that is [rows_per_group*cols] records a label, in the rows from
    [k*rows_per_group] up to [(k+1)*rows_per_group], and none in a row
    from [label_count*rows_per_group] on. *)
Theorem plainlabel_records (tile_size sheet_w sheet_h : Z) (text : string) :
  label_format (read_label_lines text) = PlainLabel ->
  let cols := sheet_w / tile_size in
  let rows := sheet_h / tile_size in
  let label_count := Z.of_nat (List.length (read_label_lines text)) in
  let rows_per_group := rows / Z.max 1 label_count in
  let block k label :=
    flat_map (fun r =>
      map (fun c =>
             mkEntry (label ++ " [row " ++ str r ++ ", col " ++ str c ++ "]")
               (c * tile_size) ((k * rows_per_group + r) * tile_size)
               tile_size tile_size)
          (range cols))
      (range rows_per_group) in
  sheet_entries tile_size sheet_w sheet_h (read_label_lines text)
  = flat_map (fun '(k, label) => block k label)
      (enumerate (read_label_lines text))
  /\ (forall k label,
        List.length (block k label)
        = (Z.to_nat rows_per_group * Z.to_nat cols)%nat
        /\ forall e, In e (block k label) ->
             exists row, y e = row * tile_size
               /\ k * rows_per_group <= row < (k + 1) * rows_per_group)
  /\ (forall e,
        In e (sheet_entries tile_size sheet_w sheet_h (read_label_lines text))
        -> exists row, y e = row * tile_size
             /\ 0 <= row < label_count * rows_per_group).
Proof.
  intros Hf cols rows label_count rows_per_group block.
  assert (E : sheet_entries tile_size sheet_w sheet_h (read_label_lines text)
              = flat_map (fun '(k, label) => block k label)
                  (enumerate (read_label_lines text))).
  { now apply sheet_entries_plain. }
  assert (B : forall k label e, In e (block k label) ->
            exists row, y e = row * tile_size
              /\ k * rows_per_group <= row < (k + 1) * rows_per_group).
  { intros k label e He. unfold block in He.
    apply in_flat_map in He. destruct He as (r & Hr & He).
    apply in_map_iff in He. destruct He as (c & <- & _).
    apply range_In in Hr. exists (k * rows_per_group + r).
    split; [reflexivity | lia]. }
  split; [exact E | split].
  - intros k label. split; [|apply B].
    unfold block. now rewrite length_flat_map_map, !range_length.
  - intros e He. rewrite E in He.
    apply in_flat_map in He. destruct He as ([k label] & Hk & He).
    apply enumerate_In in Hk. destruct Hk as [Hk _].
    destruct (B k label e He) as (row & Hy & Hrow).
    exists row. split; [exact Hy|]. fold label_count in Hk. nia.
Qed.

Lemma plainlabel_records_witness :
  label_format (read_label_lines ("foo" ++ NL ++ "bar")) = PlainLabel
  /\ List.length
       (sheet_entries 32 64 352 (read_label_lines ("foo" ++ NL ++ "bar")))
     = 20%nat
  /\ forall e,
       In e (sheet_entries 32 64 352 (read_label_lines ("foo" ++ NL ++ "bar")))
       -> exists row, y e = row * 32 /\ 0 <= row < 10.
Proof.
  split; [reflexivity|].
  destruct (plainlabel_records 32 64 352 ("foo" ++ NL ++ "bar") eq_refl)
    as (H & _ & Hrows).
  split; [rewrite H; reflexivity | exact Hrows].
Defined.

(** ** Grid geometry of the packer *)

Lemma ceil_sqrt_spec (n : Z) :
  1 <= n ->
  1 <= ceil_sqrt n /\ n <= ceil_sqrt n * ceil_sqrt n
  /\ (ceil_sqrt n - 1) * (ceil_sqrt n - 1) < n.
Proof.
  intros Hn. unfold ceil_sqrt.
  pose proof (Z.sqrt_spec n ltac:(lia)) as Hs. cbv zeta in Hs.
  pose proof (Z.sqrt_nonneg n) as H0.
  destruct (Z.sqrt n * Z.sqrt n =? n) eqn:E.
  - apply Z.eqb_eq in E. nia.
  - apply Z.eqb_neq in E. nia.
Qed.

Lemma ceil_div_spec (n d : Z) :
  0 < d -> n <= d * ceil_div n d /\ d * (ceil_div n d - 1) < n.
Proof.
  intros Hd. unfold ceil_div.
  pose proof (Z.div_mod n d ltac:(lia)) as Hq.
  pose proof (Z.mod_pos_bound n d Hd) as Hm.
  destruct (n / d * d =? n) eqn:E.
  - apply Z.eqb_eq in E. nia.
  - apply Z.eqb_neq in E. nia.
Qed.

Lemma pack_saved (names : list string) (png_name : string) (w0 h0 : Z)
    (sheet : Sheet) :
  pack names png_name (w0, h0) = Saved sheet ->
  1 <= Z.of_nat (List.length names)
  /\ sheet =
      let count := Z.of_nat (List.length names) in
      let cols := ceil_sqrt count in
      let rows := ceil_div count cols in
      mkSheet (cols * w0) (rows * h0) (place_all cols w0 h0 names)
        (atlas_text png_name count (cols * w0) (rows * h0) w0 h0
           (map atlas_line (place_all cols w0 h0 names))).
Proof.
  destruct names as [|n0 names']; [discriminate|].
  intros H. split.
  - change (List.length (n0 :: names')) with (S (List.length names')). lia.
  - unfold pack in H. injection H as <-. reflexivity.
Qed.

Lemma pack_nonempty (names : list string) (png_name : string) (w0 h0 : Z) :
  1 <= Z.of_nat (List.length names) ->
  pack names png_name (w0, h0)
  = let count := Z.of_nat (List.length names) in
    let cols := ceil_sqrt count in
    let rows := ceil_div count cols in
    Saved (mkSheet (cols * w0) (rows * h0) (place_all cols w0 h0 names)
             (atlas_text png_name count (cols * w0) (rows * h0) w0 h0
                (map atlas_line (place_all cols w0 h0 names)))).
Proof.
  destruct names as [|n0 names']; [simpl; lia | reflexivity].
Qed.

(** C5: for [n >= 1] icons, [cols] is the least integer that is at least
    the square root of [n] (the least [c >= 0] with [c*c >= n]); [rows] is
    the least integer with [cols*rows >= n]; and the packer, given [n]
    icons, saves a sheet, which is [cols*w] by [rows*h] pixels. *)
Theorem packer_grid (n : Z) :
  1 <= n ->
  let cols := ceil_sqrt n in
  let rows := ceil_div n cols in
  (0 <= cols /\ n <= cols * cols
   /\ forall c, 0 <= c -> n <= c * c -> cols <= c)
  /\ (n <= cols * rows /\ forall r, n <= cols * r -> rows <= r)
  /\ (forall names png_name w h,
        Z.of_nat (List.length names) = n ->
        exists sheet,
          pack names png_name (w, h) = Saved sheet
          /\ sheet_w sheet = cols * w /\ sheet_h sheet = rows * h).
Proof.
  intros Hn cols rows.
  destruct (ceil_sqrt_spec n Hn) as (Hc1 & Hc2 & Hc3).
  fold cols in Hc1, Hc2, Hc3.
  destruct (ceil_div_spec n cols ltac:(lia)) as (Hr1 & Hr2).
  fold rows in Hr1, Hr2.
  split; [|split].
  - repeat split; try lia. intros c Hc Hcc. nia.
  - split; [lia|]. intros r Hr. nia.
  - intros names png_name w0 h0 Hlen.
    rewrite pack_nonempty by lia. rewrite Hlen.
    eexists. split; [reflexivity|]. split; reflexivity.
Qed.

Lemma packer_grid_witness :
  1 <= 5
  /\ ceil_sqrt 5 = 3 /\ ceil_div 5 (ceil_sqrt 5) = 2
  /\ (5 <= 3 * 3 /\ forall c, 0 <= c -> 5 <= c * c -> 3 <= c)
  /\ (5 <= 3 * 2 /\ forall r, 5 <= 3 * r -> 2 <= r)
  /\ exists sheet,
       pack ["a"; "b"; "c"; "d"; "e"] "out.png" (16, 8) = Saved sheet
       /\ sheet_w sheet = 48 /\ sheet_h sheet = 16.
Proof.
  split; [lia|]. split; [reflexivity|]. split; [reflexivity|].
  destruct (packer_grid 5 ltac:(lia)) as ((_ & H1 & H2) & (H3 & H4) & Hp).
  split; [split; assumption|]. split; [split; assumption|].
  exact (Hp ["a"; "b"; "c"; "d"; "e"] "out.png" 16 8 eq_refl).
Defined.

(** ** Placement by index *)

Lemma nth_error_combine_seq {A : Type} (l : list A) (a i : nat) :
  nth_error (combine (map Z.of_nat (seq a (List.length l))) l) i
  = option_map (fun v => (Z.of_nat (a + i), v)) (nth_error l i).
Proof.
  revert a i. induction l as [|v l IH]; intros a i.
  - now destruct i.
  - destruct i as [|i]; simpl.
    + now rewrite Nat.add_0_r.
    + rewrite IH. now rewrite Nat.add_succ_r.
Qed.

Lemma map_snd_combine_seq {A : Type} (l : list A) (a : nat) :
  map snd (combine (map Z.of_nat (seq a (List.length l))) l) = l.
Proof.
  revert a. induction l as [|v l IH]; intros a; simpl;
    [reflexivity | now rewrite IH].
Qed.

Lemma place_all_names (cols w0 h0 : Z) (names : list string) :
  map name (place_all cols w0 h0 names) = names.
Proof.
  unfold place_all. rewrite map_map, enumerate_seq.
  transitivity
    (map snd (combine (map Z.of_nat (seq 0 (List.length names))) names));
    [|apply map_snd_combine_seq].
  apply map_ext. now intros [idx nm].
Qed.

Lemma place_all_nth (cols w0 h0 : Z) (names : list string) (i : nat)
    (nm : string) :
  nth_error names i = Some nm ->
  nth_error (place_all cols w0 h0 names) i
  = Some (mkEntry nm (Z.of_nat i mod cols * w0) (Z.of_nat i / cols * h0)
            w0 h0).
Proof.
  intros H. unfold place_all.
  rewrite nth_error_map, enumerate_seq, nth_error_combine_seq, H.
  reflexivity.
Qed.

(** C6: the packer places the icon of index [i] of the collected sequence
    at column [i mod cols] and row [i div cols], that is at
    [x = (i mod cols)*w], [y = (i div cols)*h]; the records, and the lines
    of the atlas, come in the order of the collected sequence; and both
    packing functions do so on the sequence they collect. *)
Theorem packer_placement (names : list string) (png_name : string)
    (w0 h0 : Z) (sheet : Sheet) :
  pack names png_name (w0, h0) = Saved sheet ->
  let count := Z.of_nat (List.length names) in
  let cols := ceil_sqrt count in
  map name (placed sheet) = names
  /\ (forall i nm, nth_error names i = Some nm ->
        nth_error (placed sheet) i
        = Some (mkEntry nm (Z.of_nat i mod cols * w0)
                  (Z.of_nat i / cols * h0) w0 h0))
  /\ atlas sheet
     = atlas_text png_name count (sheet_w sheet) (sheet_h sheet) w0 h0
         (map atlas_line (placed sheet))
  /\ (forall listing name_fn files,
        collect_dir listing = Some files ->
        create_spritesheet_from_dir listing png_name (w0, h0) name_fn
        = pack (map (fun fname => match name_fn with
                                  | Some f => f fname
                                  | None => splitext_root fname
                                  end) files)
            png_name (w0, h0))
  /\ (forall base_dir subdir categories collected,
        sorted (fun c => c) str_lt base_dir = Some categories ->
        collect_categories subdir categories = Some collected ->
        create_spritesheet_from_categorized_dirs base_dir subdir png_name
          (w0, h0)
        = pack collected png_name (w0, h0)).
Proof.
  intros Hp count cols.
  destruct (pack_saved _ _ _ _ _ Hp) as [_ ->].
  cbn [placed atlas sheet_w sheet_h].
  split; [apply place_all_names|].
  split; [intros i nm; apply place_all_nth|].
  split; [reflexivity|].
  split.
  - intros listing name_fn files Hc.
    unfold create_spritesheet_from_dir. now rewrite Hc.
  - intros base_dir subdir categories collected Hs Hc.
    unfold create_spritesheet_from_categorized_dirs. now rewrite Hs, Hc.
Qed.

Lemma packer_placement_witness :
  (exists sheet,
     pack ["a"; "b"; "c"; "d"; "e"] "out.png" (16, 8) = Saved sheet
     /\ map name (placed sheet) = ["a"; "b"; "c"; "d"; "e"]
     /\ nth_error (placed sheet) 4 = Some (mkEntry "e" 16 8 16 8)).
Proof.
  eexists. split; [reflexivity|].
  destruct (packer_placement ["a"; "b"; "c"; "d"; "e"] "out.png" 16 8 _
              eq_refl) as (Hn & Hi & _).
  split; [exact Hn | exact (Hi 4%nat "e" eq_refl)].
Defined.

(** ** Records against the canvas *)

Lemma place_all_in_canvas (w0 h0 : Z) (names : list string) :
  1 <= Z.of_nat (List.length names) -> 0 <= w0 -> 0 <= h0 ->
  let count := Z.of_nat (List.length names) in
  let cols := ceil_sqrt count in
  let rows := ceil_div count cols in
  Forall (InCanvas (cols * w0) (rows * h0)) (place_all cols w0 h0 names).
Proof.
  intros Hn Hw Hh count cols rows.
  destruct (ceil_sqrt_spec count Hn) as (Hc & _ & _). fold cols in Hc.
  destruct (ceil_div_spec count cols ltac:(lia)) as (Hr & _).
  fold rows in Hr.
  apply Forall_forall. intros e He. unfold place_all in He.
  apply in_map_iff in He. destruct He as ([idx nm] & <- & Hin).
  apply enumerate_In in Hin. destruct Hin as [Hidx _]. fold count in Hidx.
  pose proof (Z.mod_pos_bound idx cols ltac:(lia)) as Hm.
  pose proof (Z.mul_div_le idx cols ltac:(lia)) as Hd.
  assert (idx / cols < rows) by nia.
  unfold InCanvas. cbn [x y w h]. split; nia.
Qed.

Lemma tile_in_canvas (tile_size width cells c : Z) :
  0 < tile_size -> c < cells -> cells <= width / tile_size ->
  c * tile_size + tile_size <= width.
Proof.
  intros Ht Hc Hcells.
  pose proof (Z.mul_div_le width tile_size Ht). nia.
Qed.

Lemma row_line_records (tile_size sheet_w : Z) (text : string)
    (e : AtlasEntry) :
  In e (flat_map (row_line tile_size (sheet_w / tile_size))
          (read_label_lines text)) ->
  exists l ds label c,
    In l (read_label_lines text) /\ RowShape l ds label
    /\ In e (row_line tile_size (sheet_w / tile_size) l)
    /\ 0 <= c < sheet_w / tile_size
    /\ x e = c * tile_size /\ w e = tile_size
    /\ y e = (int ds - 1) * tile_size /\ h e = tile_size.
Proof.
  intros He. apply in_flat_map in He. destruct He as (l & Hl & He).
  pose proof (read_label_lines_trimmed _ _ Hl) as Htr.
  destruct (match_row_line l) as [[ds label]|] eqn:E;
    [|unfold row_line in He; rewrite E in He; destruct He].
  apply (match_row_line_iff _ _ _ Htr) in E.
  pose proof He as He'.
  rewrite (row_line_shape _ _ _ _ _ Htr E) in He'.
  apply in_map_iff in He'. destruct He' as (c & <- & Hc).
  apply range_In in Hc. exists l, ds, label, c. now repeat split.
Qed.

Lemma grid_line_records (tile_size : Z) (text : string) (e : AtlasEntry) :
  In e (flat_map (grid_line tile_size) (read_label_lines text)) ->
  exists l ds c label,
    In l (read_label_lines text) /\ GridShape l ds c label
    /\ grid_line tile_size l = [e]
    /\ e = mkEntry label (letter_index c * tile_size)
             ((int ds - 1) * tile_size) tile_size tile_size.
Proof.
  intros He. apply in_flat_map in He. destruct He as (l & Hl & He).
  pose proof (read_label_lines_trimmed _ _ Hl) as Htr.
  destruct (match_grid_line l) as [[[ds c] label]|] eqn:E;
    [|unfold grid_line in He; rewrite E in He; destruct He].
  apply (match_grid_line_iff _ _ _ _ Htr) in E.
  rewrite (grid_line_shape _ _ _ _ _ Htr E) in He.
  destruct He as [<- | []].
  exists l, ds, c, label. repeat split; try assumption.
  now apply grid_line_shape.
Qed.

(** C2, as the code has it: the records of the packer lie inside its
    canvas, and so do the records of the translator for a PlainLabel
    file.  A record of a RowLabel file lies inside the width of the
    sheet.  Every record of a RowLabel or GridRef file is a record of one
    line of that shape, and it lies inside the sheet when the row and the
    column that its own line names are inside the grid, whatever the
    other lines of the file name; the translator does not check this. *)
Theorem entries_in_canvas :
  (forall names png_name w0 h0 sheet,
     0 <= w0 -> 0 <= h0 ->
     pack names png_name (w0, h0) = Saved sheet ->
     Forall (InCanvas (sheet_w sheet) (sheet_h sheet)) (placed sheet))
  /\ (forall tile_size sheet_w sheet_h text,
        0 < tile_size ->
        (label_format (read_label_lines text) = PlainLabel ->
         Forall (InCanvas sheet_w sheet_h)
           (sheet_entries tile_size sheet_w sheet_h (read_label_lines text)))
        /\ (label_format (read_label_lines text) = RowLabel ->
            (forall e,
               In e (sheet_entries tile_size sheet_w sheet_h
                       (read_label_lines text)) ->
               x e + w e <= sheet_w
               /\ exists l ds label,
                    In l (read_label_lines text) /\ RowShape l ds label
                    /\ In e (row_line tile_size (sheet_w / tile_size) l)
                    /\ (int ds <= sheet_h / tile_size ->
                        InCanvas sheet_w sheet_h e))
            /\ (forall l ds label e,
                  In l (read_label_lines text) -> RowShape l ds label ->
                  int ds <= sheet_h / tile_size ->
                  In e (row_line tile_size (sheet_w / tile_size) l) ->
                  In e (sheet_entries tile_size sheet_w sheet_h
                          (read_label_lines text))
                  /\ InCanvas sheet_w sheet_h e))
        /\ (label_format (read_label_lines text) = GridRef ->
            (forall e,
               In e (sheet_entries tile_size sheet_w sheet_h
                       (read_label_lines text)) ->
               exists l ds c label,
                 In l (read_label_lines text) /\ GridShape l ds c label
                 /\ grid_line tile_size l = [e]
                 /\ (letter_index c < sheet_w / tile_size ->
                     int ds <= sheet_h / tile_size ->
                     InCanvas sheet_w sheet_h e))
            /\ (forall l ds c label e,
                  In l (read_label_lines text) -> GridShape l ds c label ->
                  letter_index c < sheet_w / tile_size ->
                  int ds <= sheet_h / tile_size ->
                  In e (grid_line tile_size l) ->
                  In e (sheet_entries tile_size sheet_w sheet_h
                          (read_label_lines text))
                  /\ InCanvas sheet_w sheet_h e))).
Proof.
  split.
  - intros names png_name w0 h0 sheet Hw Hh Hp.
    destruct (pack_saved _ _ _ _ _ Hp) as [Hn ->].
    cbn [sheet_w sheet_h placed].
    now apply place_all_in_canvas.
  - intros tile_size sw sh text Ht. split; [|split].
    + intros Hf. rewrite (sheet_entries_plain _ _ _ _ Hf).
      apply Forall_forall. intros e He.
      apply in_flat_map in He. destruct He as ([k label] & Hk & He).
      apply enumerate_In in Hk. destruct Hk as [Hk _].
      apply in_flat_map in He. destruct He as (r & Hr & He).
      apply in_map_iff in He. destruct He as (c & <- & Hc).
      apply range_In in Hr. apply range_In in Hc.
      unfold InCanvas. cbn [x y w h].
      set (lc := Z.of_nat (List.length (read_label_lines text))) in *.
      set (rpg := sh / tile_size / Z.max 1 lc) in *.
      split; [apply (tile_in_canvas _ _ (sw / tile_size)); lia|].
      apply (tile_in_canvas _ _ (lc * rpg)); [lia | nia |].
      unfold rpg. rewrite Z.max_r by lia. apply Z.mul_div_le. lia.
    + intros Hf. rewrite (sheet_entries_row _ _ _ _ Hf).
      assert (Hin_canvas : forall e ds c,
                 0 <= c < sw / tile_size ->
                 x e = c * tile_size -> w e = tile_size ->
                 y e = (int ds - 1) * tile_size -> h e = tile_size ->
                 x e + w e <= sw
                 /\ (int ds <= sh / tile_size -> InCanvas sw sh e)).
      { intros e ds c Hc Hx Hw Hy Hh.
        assert (Hxw : x e + w e <= sw).
        { rewrite Hx, Hw. apply (tile_in_canvas _ _ (sw / tile_size)); lia. }
        split; [exact Hxw|]. intros Hr. split; [exact Hxw|].
        rewrite Hy, Hh. apply (tile_in_canvas _ _ (sh / tile_size)); lia. }
      split.
      * intros e He.
        destruct (row_line_records _ _ _ _ He)
          as (l & ds & label & c & Hl & Hs & Hel & Hc & Hx & Hw & Hy & Hh).
        destruct (Hin_canvas e ds c Hc Hx Hw Hy Hh) as [Hxw Hcan].
        split; [exact Hxw|]. now exists l, ds, label.
      * intros l ds label e Hl Hs Hr Hel.
        assert (He : In e (flat_map (row_line tile_size (sw / tile_size))
                             (read_label_lines text)))
          by (apply in_flat_map; now exists l).
        split; [exact He|].
        pose proof (read_label_lines_trimmed _ _ Hl) as Htr.
        rewrite (row_line_shape _ _ _ _ _ Htr Hs) in Hel.
        apply in_map_iff in Hel. destruct Hel as (c & <- & Hc).
        apply range_In in Hc.
        exact (proj2 (Hin_canvas
                        (mkEntry (label ++ " [frame " ++ str c ++ "]")
                           (c * tile_size) ((int ds - 1) * tile_size)
                           tile_size tile_size)
                        ds c Hc eq_refl eq_refl eq_refl eq_refl) Hr).
    + intros Hf. rewrite (sheet_entries_grid _ _ _ _ Hf).
      assert (Hin_canvas : forall ds c label,
                 letter_index c < sw / tile_size ->
                 int ds <= sh / tile_size ->
                 InCanvas sw sh
                   (mkEntry label (letter_index c * tile_size)
                      ((int ds - 1) * tile_size) tile_size tile_size)).
      { intros ds c label Hc Hr. unfold InCanvas. cbn [x y w h].
        split; [apply (tile_in_canvas _ _ (sw / tile_size)); lia|].
        apply (tile_in_canvas _ _ (sh / tile_size)); lia. }
      split.
      * intros e He.
        destruct (grid_line_records _ _ _ He)
          as (l & ds & c & label & Hl & Hs & Hg & ->).
        exists l, ds, c, label.
        split; [exact Hl | split; [exact Hs | split; [exact Hg|]]].
        apply Hin_canvas.
      * intros l ds c label e Hl Hs Hc Hr Hel.
        split; [apply in_flat_map; now exists l|].
        pose proof (read_label_lines_trimmed _ _ Hl) as Htr.
        rewrite (grid_line_shape _ _ _ _ _ Htr Hs) in Hel.
        destruct Hel as [<- | []]. now apply Hin_canvas.
Qed.

Lemma entries_in_canvas_witness :
  Forall (InCanvas 48 16)
    (place_all 3 16 8 ["a"; "b"; "c"; "d"; "e"])
  /\ Forall (InCanvas 70 100)
       (sheet_entries 32 70 100 (read_label_lines ("foo" ++ NL ++ "bar")))
  /\ (label_format (read_label_lines ("1.a sword" ++ NL ++ "5.c axe"))
      = GridRef
      /\ In (mkEntry "sword" 0 0 32 32)
           (sheet_entries 32 64 64
              (read_label_lines ("1.a sword" ++ NL ++ "5.c axe")))
      /\ InCanvas 64 64 (mkEntry "sword" 0 0 32 32))
  /\ (label_format (read_label_lines ("1. idle" ++ NL ++ "9. walk"))
      = RowLabel
      /\ In (mkEntry "idle [frame 1]" 32 0 32 32)
           (sheet_entries 32 64 64
              (read_label_lines ("1. idle" ++ NL ++ "9. walk")))
      /\ InCanvas 64 64 (mkEntry "idle [frame 1]" 32 0 32 32)).
Proof.
  destruct entries_in_canvas as [Hpack Hlegacy].
  split; [|split; [|split]].
  - exact (Hpack ["a"; "b"; "c"; "d"; "e"] "out.png" 16 8 _
             ltac:(lia) ltac:(lia) eq_refl).
  - exact (proj1 (Hlegacy 32 70 100 ("foo" ++ NL ++ "bar") ltac:(lia))
             eq_refl).
  - split; [reflexivity|].
    destruct (Hlegacy 32 64 64 ("1.a sword" ++ NL ++ "5.c axe") ltac:(lia))
      as (_ & _ & Hgrid).
    destruct (Hgrid eq_refl) as [_ Hline].
    refine (Hline "1.a sword" "1" "a"%char "sword" _ _ _ _ _ _).
    + vm_compute. left. reflexivity.
    + exists "", " ". repeat split; try reflexivity. left. reflexivity.
    + reflexivity.
    + vm_compute. discriminate.
    + vm_compute. left. reflexivity.
  - split; [reflexivity|].
    destruct (Hlegacy 32 64 64 ("1. idle" ++ NL ++ "9. walk") ltac:(lia))
      as (_ & Hrow & _).
    destruct (Hrow eq_refl) as [_ Hline].
    refine (Hline "1. idle" "1" "idle" _ _ _ _ _).
    + vm_compute. left. reflexivity.
    + exists " ". repeat split; reflexivity.
    + vm_compute. discriminate.
    + vm_compute. right. left. reflexivity.
Defined.

(** C2, as stated, fails: this GridRef file names row 5 and column [c] of
    a sheet of one tile, and its record lies outside the sheet. *)
Lemma legacy_entry_outside_canvas :
  label_format (read_label_lines "5.c sword") = GridRef
  /\ sheet_entries 32 32 32 (read_label_lines "5.c sword")
     = [mkEntry "sword" 64 128 32 32]
  /\ ~ Forall (InCanvas 32 32)
         (sheet_entries 32 32 32 (read_label_lines "5.c sword")).
Proof.
  split; [reflexivity|]. split; [reflexivity|].
  intros H. apply Forall_inv in H. destruct H as [H _].
  vm_compute in H. now apply H.
Qed.

(** ** Sheets that are skipped, sheets that are written *)

Lemma div_whole_tiles (tile_size n : Z) :
  tile_size <> 0 -> tile_size * (n / tile_size) / tile_size = n / tile_size.
Proof. intros Ht. rewrite Z.mul_comm. now apply Z.div_mul. Qed.

(** C4, as the code has it: a sheet whose pixel size is not a multiple of
    the tile size is translated like any other.  The grid is that of the
    whole tiles ([cols] and [rows] are floors), so that the records are
    those of the sheet cut down to its whole tiles; the header of the
    atlas keeps the pixel size of the image.  A sheet is skipped when,
    and only when, its image or its label file is missing. *)
Theorem uneven_sheet_translated (tile_size : Z) (sheet_name : string)
    (sheet_w sheet_h : Z) (text : string) :
  tile_size <> 0 ->
  translate_sheet tile_size sheet_name
    (mkFiles (Some (sheet_w, sheet_h)) (Some text))
  = (let entries :=
       sheet_entries tile_size sheet_w sheet_h (read_label_lines text) in
     Written ("32rogues-" ++ sheet_name ++ ".png")
       ("32rogues-" ++ sheet_name ++ "-atlas.txt")
       (atlas_text ("32rogues-" ++ sheet_name ++ ".png")
          (Z.of_nat (List.length entries)) sheet_w sheet_h
          tile_size tile_size (map atlas_line entries))
       entries)
  /\ sheet_entries tile_size sheet_w sheet_h (read_label_lines text)
     = sheet_entries tile_size (tile_size * (sheet_w / tile_size))
         (tile_size * (sheet_h / tile_size)) (read_label_lines text)
  /\ (forall files,
        (exists diagnostic,
           translate_sheet tile_size sheet_name files = Skipped diagnostic)
        <-> png files = None \/ txt files = None).
Proof.
  intros Ht. split; [|split].
  - unfold translate_sheet. cbn [png txt]. now rewrite length_map.
  - unfold sheet_entries. now rewrite !div_whole_tiles.
  - intros [[[sw sh]|] [t|]]; unfold translate_sheet; cbn [png txt]; split;
      try (intros [d Hd]; discriminate Hd);
      try (intros [H|H]; discriminate H);
      try (intros _; eexists; reflexivity);
      auto.
Qed.

Lemma uneven_sheet_translated_witness :
  32 <> 0
  /\ sheet_entries 32 70 100 (read_label_lines "foo")
     = sheet_entries 32 64 96 (read_label_lines "foo")
  /\ exists atlas entries,
       translate_sheet 32 "autotiles" (mkFiles (Some (70, 100)) (Some "foo"))
       = Written "32rogues-autotiles.png" "32rogues-autotiles-atlas.txt"
           atlas entries.
Proof.
  split; [lia|].
  destruct (uneven_sheet_translated 32 "autotiles" 70 100 "foo" ltac:(lia))
    as (Hw & He & _).
  split; [exact He|]. rewrite Hw. eexists. eexists. reflexivity.
Defined.

(** C4, as stated, fails: a sheet of 70 by 100 pixels, which 32 does not
    divide, is not skipped; its atlas is written. *)
Lemma uneven_sheet_not_skipped :
  70 mod 32 <> 0 /\ 100 mod 32 <> 0
  /\ translate_sheet 32 "autotiles" (mkFiles (Some (70, 100)) (Some "foo"))
     = Written "32rogues-autotiles.png" "32rogues-autotiles-atlas.txt"
         (atlas_text "32rogues-autotiles.png" 6 70 100 32 32
            (map atlas_line
               (sheet_entries 32 70 100 (read_label_lines "foo"))))
         (sheet_entries 32 70 100 (read_label_lines "foo"))
  /\ ~ (exists diagnostic,
          translate_sheet 32 "autotiles"
            (mkFiles (Some (70, 100)) (Some "foo"))
          = Skipped diagnostic).
Proof.
  split; [discriminate|]. split; [discriminate|]. split; [reflexivity|].
  intros [d Hd]. discriminate Hd.
Qed.

(** ** The atlas of a sheet without records *)

(** C10: the packer saves nothing for an empty collection, while the
    translator, once both files of a sheet are there, writes the atlas
    whatever the number of records; with no record the header says
    [Total sprites: 0] and one empty line follows it.  A GridRef file
    none of whose lines parses in full is such a case. *)
Theorem empty_atlas_written (tile_size : Z) (sheet_name : string)
    (sheet_w sheet_h : Z) (text : string) :
  (forall png_name icon_size, pack [] png_name icon_size = NoPngs)
  /\ (forall listing png_name icon_size name_fn,
        filter is_png listing = [] ->
        create_spritesheet_from_dir listing png_name icon_size name_fn
        = NoPngs)
  /\ (forall png_name icon_size,
        create_spritesheet_from_categorized_dirs [] (fun _ => None) png_name
          icon_size = NoPngs)
  /\ (exists atlas entries,
        translate_sheet tile_size sheet_name
          (mkFiles (Some (sheet_w, sheet_h)) (Some text))
        = Written ("32rogues-" ++ sheet_name ++ ".png")
            ("32rogues-" ++ sheet_name ++ "-atlas.txt") atlas entries
        /\ entries
           = sheet_entries tile_size sheet_w sheet_h (read_label_lines text)
        /\ (entries = [] ->
            atlas
            = ("# Sprite Sheet Atlas: "
                 ++ ("32rogues-" ++ sheet_name ++ ".png") ++ NL)
              ++ ("# Total sprites: 0" ++ NL)
              ++ ("# Sheet size: " ++ str sheet_w ++ "x" ++ str sheet_h ++ NL)
              ++ ("# Icon size: " ++ str tile_size ++ "x" ++ str tile_size
                    ++ NL)
              ++ ("# Format: name\tx\ty\twidth\theight" ++ NL)
              ++ NL))
  /\ label_format (read_label_lines "1.abc") = GridRef
  /\ sheet_entries tile_size sheet_w sheet_h (read_label_lines "1.abc") = [].
Proof.
  split; [reflexivity|]. split; [|split; [reflexivity|split]].
  - intros listing png_name icon_size name_fn Hf.
    unfold create_spritesheet_from_dir, collect_dir. now rewrite Hf.
  - eexists. eexists. split; [reflexivity|]. split; [reflexivity|].
    intros ->. reflexivity.
  - split; reflexivity.
Qed.

(** ** The natural sort key *)

Lemma digit_free_not_isdigit (t : string) :
  all_chars not_digit t = true -> isdigit t = false.
Proof.
  unfold isdigit. destruct t as [|c t]; [reflexivity|].
  simpl. unfold not_digit at 1. intros H. apply andb_prop in H.
  destruct H as [H _]. apply negb_true_iff in H. now rewrite H.
Qed.

Lemma isdigit_cons (c : ascii) (d : string) :
  isdigit (String c d) = is_digit c && all_chars is_digit d.
Proof. reflexivity. Qed.

Lemma re_split_digits_runs (s : string) :
  runs true (re_split_digits s) = true.
Proof.
  induction s as [|c s IH]; [reflexivity|].
  cbn [re_split_digits]. destruct (is_digit c) eqn:Hc.
  - destruct (re_split_digits s) as [|t [|d rest]]; [discriminate| |].
    + destruct t; cbn [runs all_chars]; rewrite isdigit_cons, Hc;
        exact IH.
    + destruct t as [|c' t].
      * cbn [runs all_chars] in *. rewrite isdigit_cons, Hc.
        unfold isdigit in IH. simpl in IH.
        apply andb_prop in IH. destruct IH as [Hd Hr].
        apply andb_prop in Hd. destruct Hd as [_ Hd].
        now rewrite Hd, Hr.
      * cbn [runs all_chars]. rewrite isdigit_cons, Hc. exact IH.
  - destruct (re_split_digits s) as [|t rest]; [discriminate|].
    cbn [runs all_chars] in *. unfold not_digit at 1. now rewrite Hc.
Qed.

Lemma runs_alternates (text_next : bool) (parts : list string) :
  runs text_next parts = true ->
  alternates text_next
    (map (fun c => if isdigit c then KInt (int c) else KStr (lower c)) parts)
  = true.
Proof.
  revert text_next. induction parts as [|p rest IH]; intros b H;
    [exact H|].
  cbn [runs] in H. cbn [map]. destruct b.
  - apply andb_prop in H. destruct H as [Hp Hr].
    rewrite (digit_free_not_isdigit _ Hp). simpl. now apply IH.
  - apply andb_prop in H. destruct H as [Hp Hr].
    rewrite Hp. simpl. now apply IH.
Qed.

(** A key is a [str], then an [int] and a [str], any number of times. *)
Lemma natural_sort_key_alternates (s : string) :
  alternates true (natural_sort_key s) = true.
Proof. apply runs_alternates, re_split_digits_runs. Qed.

Lemma re_split_head (s : string) :
  stops is_digit s ->
  re_split_digits s = [""]
  \/ exists c t rest, re_split_digits s = String c t :: rest.
Proof.
  destruct s as [|c s]; [now left|]. simpl. intros Hc. rewrite Hc.
  right. destruct (re_split_digits s) as [|t rest]; eauto.
Qed.

Lemma re_split_digit_run (d s : string) :
  isdigit d = true -> stops is_digit s ->
  re_split_digits (d ++ s) = "" :: d :: re_split_digits s.
Proof.
  unfold isdigit. intros Hd Hs. apply andb_prop in Hd.
  destruct Hd as [Hne Hd].
  induction d as [|c d IH]; [discriminate|].
  simpl in Hd. apply andb_prop in Hd. destruct Hd as [Hc Hd].
  cbn [append re_split_digits]. rewrite Hc.
  destruct d as [|c' d'].
  - simpl. destruct (re_split_head s Hs) as [-> | (c1 & t & rest & ->)];
      reflexivity.
  - now rewrite (IH eq_refl Hd).
Qed.

Lemma re_split_text (t : string) (parts : list string) (s : string) :
  all_chars not_digit t = true ->
  re_split_digits s = "" :: parts ->
  re_split_digits (t ++ s) = t :: parts.
Proof.
  intros Ht Hs. induction t as [|c t IH]; [exact Hs|].
  simpl in Ht. apply andb_prop in Ht. destruct Ht as [Hc Ht].
  apply negb_true_iff in Hc.
  cbn [append re_split_digits]. now rewrite Hc, (IH Ht).
Qed.

Lemma natural_sort_key_runs (t d s : string) :
  digit_free t -> isdigit d = true -> stops is_digit s ->
  natural_sort_key (t ++ d ++ s)
  = KStr (lower t) :: KInt (int d) :: natural_sort_key s.
Proof.
  intros Ht Hd Hs. unfold natural_sort_key.
  rewrite (re_split_text t _ _ Ht (re_split_digit_run d s Hd Hs)).
  cbn [map]. now rewrite (digit_free_not_isdigit _ Ht), Hd.
Qed.

Lemma natural_sort_key_text (t : string) :
  digit_free t -> natural_sort_key t = [KStr (lower t)].
Proof.
  intros Ht. unfold natural_sort_key.
  rewrite <- (append_nil_r t) at 1.
  rewrite (re_split_text t [] "" Ht eq_refl).
  cbn [map]. now rewrite (digit_free_not_isdigit _ Ht).
Qed.

(** ** The order of the keys *)

Lemma string_compare_refl (a : string) : String.compare a a = Eq.
Proof.
  induction a as [|x a IH]; [reflexivity|]. simpl.
  unfold Ascii.compare. now rewrite N.compare_refl.
Qed.

Lemma string_compare_lt_trans (a b c : string) :
  String.compare a b = Lt -> String.compare b c = Lt ->
  String.compare a c = Lt.
Proof.
  revert b c. induction a as [|x a IH]; intros [|y b] [|z c] Hab Hbc;
    simpl in *; try discriminate; try reflexivity.
  unfold Ascii.compare in *.
  destruct (N.compare_spec (N_of_ascii x) (N_of_ascii y)) as [Exy|Lxy|Gxy];
    destruct (N.compare_spec (N_of_ascii y) (N_of_ascii z)) as [Eyz|Lyz|Gyz];
    try discriminate;
    destruct (N.compare_spec (N_of_ascii x) (N_of_ascii z)) as [Exz|Lxz|Gxz];
    try reflexivity; try lia.
  now apply (IH b c).
Qed.

Lemma string_ltb_asym (a b : string) :
  String.ltb a b = true -> String.ltb b a = false.
Proof.
  unfold String.ltb. rewrite (String.compare_antisym b a).
  now destruct (String.compare a b).
Qed.

Lemma string_ltb_trans (a b c : string) :
  String.ltb a b = true -> String.ltb b c = true -> String.ltb a c = true.
Proof.
  unfold String.ltb. intros Hab Hbc.
  destruct (String.compare a b) eqn:Eab; try discriminate.
  destruct (String.compare b c) eqn:Ebc; try discriminate.
  now rewrite (string_compare_lt_trans _ _ _ Eab Ebc).
Qed.

Lemma string_ltb_total (a b : string) :
  a = b \/ String.ltb a b = true \/ String.ltb b a = true.
Proof.
  unfold String.ltb. rewrite (String.compare_antisym b a).
  destruct (String.compare a b) eqn:E; simpl; auto.
  left. now apply String.compare_eq_iff.
Qed.

Lemma part_eqb_eq (p q : key_part) : part_eqb p q = true <-> p = q.
Proof.
  destruct p as [m|u], q as [n|v]; simpl; split; try discriminate.
  - intros H. apply Z.eqb_eq in H. now subst.
  - intros H. inversion H. apply Z.eqb_refl.
  - intros H. apply String.eqb_eq in H. now subst.
  - intros H. inversion H. apply String.eqb_refl.
Qed.

Lemma part_eqb_refl (p : key_part) : part_eqb p p = true.
Proof. now apply part_eqb_eq. Qed.

Lemma part_lt_irrefl (p : key_part) : part_lt p p = Some false.
Proof.
  destruct p as [m|u]; simpl; [now rewrite Z.ltb_irrefl|].
  unfold String.ltb. now rewrite string_compare_refl.
Qed.

Lemma part_lt_asym (p q : key_part) :
  part_lt p q = Some true -> part_lt q p = Some false.
Proof.
  destruct p as [m|u], q as [n|v]; simpl; try discriminate;
    intros H; inversion H as [H']; f_equal.
  - apply Z.ltb_lt in H'. apply Z.ltb_ge. lia.
  - now apply string_ltb_asym.
Qed.

Lemma part_lt_trans (p q r : key_part) :
  part_lt p q = Some true -> part_lt q r = Some true ->
  part_lt p r = Some true.
Proof.
  destruct p as [m|u], q as [n|v], r as [o|t]; simpl; try discriminate;
    intros H1 H2; inversion H1 as [H1']; inversion H2 as [H2']; f_equal.
  - rewrite H1'. apply Z.ltb_lt in H1', H2'. apply Z.ltb_lt. lia.
  - rewrite H1'. exact (string_ltb_trans _ _ _ H1' H2').
Qed.

Lemma key_lt_irrefl (a : list key_part) : key_lt a a = Some false.
Proof.
  induction a as [|p a IH]; [reflexivity|].
  simpl. now rewrite part_eqb_refl.
Qed.

Lemma key_lt_asym (a b : list key_part) :
  key_lt a b = Some true -> key_lt b a = Some false.
Proof.
  revert b. induction a as [|p a IH]; intros [|q b]; simpl;
    try discriminate; try reflexivity.
  destruct (part_eqb p q) eqn:E.
  - apply part_eqb_eq in E. subst q. rewrite part_eqb_refl. apply IH.
  - intros H. destruct (part_eqb q p) eqn:E'.
    + apply part_eqb_eq in E'. subst q. rewrite part_eqb_refl in E.
      discriminate.
    + now apply part_lt_asym.
Qed.

Lemma key_lt_trans (a b c : list key_part) :
  key_lt a b = Some true -> key_lt b c = Some true ->
  key_lt a c = Some true.
Proof.
  revert b c. induction a as [|p a IH]; intros [|q b] [|r c]; simpl;
    try discriminate; try reflexivity.
  destruct (part_eqb p q) eqn:Epq.
  - apply part_eqb_eq in Epq. subst q.
    destruct (part_eqb p r) eqn:Epr; [apply IH | auto].
  - intros Hpq. destruct (part_eqb q r) eqn:Eqr.
    + apply part_eqb_eq in Eqr. subst r. rewrite Epq. auto.
    + intros Hqr. destruct (part_eqb p r) eqn:Epr.
      * apply part_eqb_eq in Epr. subst r.
        apply part_lt_asym in Hpq. congruence.
      * exact (part_lt_trans _ _ _ Hpq Hqr).
Qed.

(** Two keys of the same alternation compare without a [TypeError], and
    one of them is the smaller unless they are the same key. *)
Lemma key_lt_total (str_next : bool) (a b : list key_part) :
  alternates str_next a = true -> alternates str_next b = true ->
  a = b \/ key_lt a b = Some true \/ key_lt b a = Some true.
Proof.
  revert str_next b. induction a as [|p a IH]; intros e [|q b] Ha Hb;
    auto; try (right; left; reflexivity); try (right; right; reflexivity).
  destruct p as [m|u], q as [n|v]; simpl in Ha, Hb;
    apply andb_prop in Ha; apply andb_prop in Hb;
    destruct Ha as [He Ha], Hb as [He' Hb];
    try (destruct e; discriminate).
  - cbn [key_lt part_eqb part_lt].
    destruct (Z.eqb_spec m n) as [->|Hmn].
    + rewrite Z.eqb_refl.
      destruct (IH _ _ Ha Hb) as [-> | H]; [now left | now right].
    + replace (n =? m) with false by (symmetry; apply Z.eqb_neq; lia).
      right. destruct (Z.ltb_spec m n); [now left|].
      right. f_equal. apply Z.ltb_lt. lia.
  - cbn [key_lt part_eqb part_lt].
    destruct (String.eqb_spec u v) as [->|Huv].
    + rewrite String.eqb_refl.
      destruct (IH _ _ Ha Hb) as [-> | H]; [now left | now right].
    + replace (String.eqb v u) with false
        by (symmetry; apply String.eqb_neq; congruence).
      right. destruct (string_ltb_total u v) as [E | [H | H]];
        [contradiction | left | right]; now rewrite H.
Qed.

Lemma key_lt_prefix (k : list key_part) (p : key_part)
    (k' : list key_part) :
  key_lt k (k ++ p :: k') = Some true.
Proof.
  induction k as [|q k IH]; [reflexivity|].
  simpl. now rewrite part_eqb_refl.
Qed.

Lemma natural_total (a b : string) :
  natural_sort_key a = natural_sort_key b
  \/ natural_lt a b \/ natural_lt b a.
Proof.
  apply (key_lt_total true); apply natural_sort_key_alternates.
Qed.

Lemma natural_le_iff (a b : string) :
  natural_le a b
  <-> natural_lt a b \/ natural_sort_key a = natural_sort_key b.
Proof.
  unfold natural_le, natural_lt. split.
  - intros H. destruct (natural_total a b) as [E | [L | L]]; auto.
    unfold natural_lt in L. congruence.
  - intros [L | E]; [now apply key_lt_asym|].
    rewrite E. apply key_lt_irrefl.
Qed.

Lemma natural_le_refl (a : string) : natural_le a a.
Proof. apply key_lt_irrefl. Qed.

Lemma natural_le_trans (a b c : string) :
  natural_le a b -> natural_le b c -> natural_le a c.
Proof.
  rewrite !natural_le_iff. unfold natural_lt.
  intros [Hab | Eab] [Hbc | Ebc].
  - left. exact (key_lt_trans _ _ _ Hab Hbc).
  - left. now rewrite <- Ebc.
  - left. now rewrite Eab.
  - right. congruence.
Qed.

Lemma natural_le_total (a b : string) : natural_le a b \/ natural_le b a.
Proof.
  rewrite !natural_le_iff.
  destruct (natural_total a b) as [E | [L | L]]; auto.
Qed.

Lemma natural_comparable (a b : string) :
  exists r, key_lt (natural_sort_key a) (natural_sort_key b) = Some r.
Proof.
  destruct (natural_total a b) as [E | [L | L]].
  - rewrite E, key_lt_irrefl. eauto.
  - unfold natural_lt in L. eauto.
  - apply key_lt_asym in L. eauto.
Qed.

(** ** Sorting by the natural key *)

Lemma insert_natural (x : string) (l : list string) :
  StronglySorted natural_le l ->
  exists l',
    insert natural_sort_key key_lt x l = Some l'
    /\ Permutation (x :: l) l' /\ StronglySorted natural_le l'.
Proof.
  induction l as [|y l IH]; intros Hs.
  - exists [x]. repeat split; [apply Permutation_refl|].
    constructor; constructor.
  - cbn [insert]. destruct (natural_comparable y x) as [r Hr]. rewrite Hr.
    apply StronglySorted_inv in Hs. destruct Hs as [Hl Hy].
    destruct r.
    + destruct (IH Hl) as (l' & Hi & Hp & Hs').
      exists (y :: l'). rewrite Hi. repeat split.
      * apply perm_trans with (y :: x :: l);
          [apply perm_swap | now apply perm_skip].
      * constructor; [exact Hs'|].
        apply (Permutation_Forall Hp). constructor; [|exact Hy].
        now apply key_lt_asym.
    + exists (x :: y :: l). repeat split; [apply Permutation_refl|].
      constructor; [now constructor|].
      constructor; [exact Hr|].
      apply Forall_forall. intros z Hz.
      apply (natural_le_trans x y z); [exact Hr|].
      rewrite Forall_forall in Hy. now apply Hy.
Qed.

Lemma sorted_natural (l : list string) :
  exists l',
    sorted natural_sort_key key_lt l = Some l'
    /\ Permutation l l' /\ StronglySorted natural_le l'.
Proof.
  induction l as [|x l IH].
  - exists []. repeat split; constructor.
  - destruct IH as (s & Hs & Hp & Hss).
    destruct (insert_natural x s Hss) as (l' & Hi & Hp' & Hs').
    exists l'. cbn [sorted]. rewrite Hs. repeat split; try assumption.
    apply perm_trans with (x :: s); [now apply perm_skip | exact Hp'].
Qed.

(** C9: two natural keys always compare; the order they give on names is
    reflexive, transitive and total, and two names tie only on equal
    keys.  A name made of a text without digits, a digit run and a rest
    has the lowered text, the integer of the run and then the key of the
    rest as its key; integers compare as integers, texts as texts, the
    first difference decides, and a key that is exhausted comes before a
    longer one.  Sorting by the key gives the names in that order. *)
Theorem natural_sort_order :
  (forall a b,
     exists r, key_lt (natural_sort_key a) (natural_sort_key b) = Some r)
  /\ (forall a, natural_le a a)
  /\ (forall a b c, natural_le a b -> natural_le b c -> natural_le a c)
  /\ (forall a b, natural_le a b \/ natural_le b a)
  /\ (forall a b, natural_le a b -> natural_le b a ->
        natural_sort_key a = natural_sort_key b)
  /\ (forall a b,
        natural_sort_key a = natural_sort_key b
        \/ natural_lt a b \/ natural_lt b a)
  /\ (forall t d s,
        digit_free t -> isdigit d = true -> stops is_digit s ->
        natural_sort_key (t ++ d ++ s)
        = KStr (lower t) :: KInt (int d) :: natural_sort_key s)
  /\ (forall t, digit_free t -> natural_sort_key t = [KStr (lower t)])
  /\ (forall m n k1 k2,
        key_lt (KInt m :: k1) (KInt n :: k2)
        = if m =? n then key_lt k1 k2 else Some (m <? n))
  /\ (forall u v k1 k2,
        key_lt (KStr u :: k1) (KStr v :: k2)
        = if String.eqb u v then key_lt k1 k2 else Some (String.ltb u v))
  /\ (forall k p k', key_lt k (k ++ p :: k') = Some true)
  /\ (forall l,
        exists l',
          sorted natural_sort_key key_lt l = Some l'
          /\ Permutation l l' /\ StronglySorted natural_le l')
  /\ sorted natural_sort_key key_lt ["fa10"; "fa2"; "fa1"]
     = Some ["fa1"; "fa2"; "fa10"].
Proof.
  repeat match goal with |- _ /\ _ => split end.
  - apply natural_comparable.
  - apply natural_le_refl.
  - apply natural_le_trans.
  - apply natural_le_total.
  - intros a b Hab Hba. apply natural_le_iff in Hab.
    destruct Hab as [L | E]; [|exact E].
    unfold natural_le, natural_lt in *. congruence.
  - apply natural_total.
  - apply natural_sort_key_runs.
  - apply natural_sort_key_text.
  - reflexivity.
  - reflexivity.
  - apply key_lt_prefix.
  - apply sorted_natural.
  - reflexivity.
Qed.

Lemma natural_sort_order_witness :
  natural_le "fa2" "fa10" /\ natural_le "fa10" "fa11"
  /\ natural_le "fa2" "fa11"
  /\ natural_sort_key "fa10x" = [KStr "fa"; KInt 10; KStr "x"].
Proof.
  destruct natural_sort_order
    as (_ & _ & Htrans & _ & _ & _ & Hruns & Htext & _).
  assert (H1 : natural_le "fa2" "fa10") by reflexivity.
  assert (H2 : natural_le "fa10" "fa11") by reflexivity.
  split; [exact H1|]. split; [exact H2|].
  split; [exact (Htrans _ _ _ H1 H2)|].
  change (natural_sort_key ("fa" ++ "10" ++ "x")
          = [KStr "fa"; KInt 10; KStr "x"]).
  rewrite (Hruns "fa" "10" "x" eq_refl eq_refl eq_refl).
  now rewrite (Htext "x" eq_refl).
Defined.

Lemma empty_atlas_written_witness :
  create_spritesheet_from_dir ["notes.txt"] "out.png" (16, 16) None = NoPngs
  /\ exists atlas,
       translate_sheet 32 "items" (mkFiles (Some (64, 64)) (Some "1.abc"))
       = Written "32rogues-items.png" "32rogues-items-atlas.txt" atlas []
       /\ atlas
          = ("# Sprite Sheet Atlas: 32rogues-items.png" ++ NL)
            ++ ("# Total sprites: 0" ++ NL)
            ++ ("# Sheet size: 64x64" ++ NL)
            ++ ("# Icon size: 32x32" ++ NL)
            ++ ("# Format: name\tx\ty\twidth\theight" ++ NL)
            ++ NL.
Proof.
  destruct (empty_atlas_written 32 "items" 64 64 "1.abc")
    as (_ & Hdir & _ & (atlas & entries & Hw & He & Ha) & _ & Hnone).
  split; [exact (Hdir ["notes.txt"] "out.png" (16, 16) None eq_refl)|].
  rewrite Hnone in He. subst entries.
  exists atlas. split; [exact Hw|]. rewrite (Ha eq_refl). reflexivity.
Defined.

(** * Further properties of the code *)

(** ** The shape of the packer's grid *)

(** X1: the grid of the packer is square or one row short of a square,
    it has a cell for every icon, and fewer than [cols] cells stay
    empty, so that only the last row can be partly filled. *)
Theorem packer_grid_near_square (n : Z) :
  1 <= n ->
  let cols := ceil_sqrt n in
  let rows := ceil_div n cols in
  cols - 1 <= rows <= cols
  /\ 0 <= cols * rows - n < cols
  /\ (n = cols * cols -> rows = cols).
Proof.
  intros Hn cols rows.
  destruct (ceil_sqrt_spec n Hn) as (Hc1 & Hc2 & Hc3).
  fold cols in Hc1, Hc2, Hc3.
  destruct (ceil_div_spec n cols ltac:(lia)) as (Hr1 & Hr2).
  fold rows in Hr1, Hr2.
  repeat split; try nia.
Qed.

Lemma packer_grid_near_square_witness :
  1 <= 7
  /\ ceil_sqrt 7 - 1 <= ceil_div 7 (ceil_sqrt 7) <= ceil_sqrt 7
  /\ 0 <= ceil_sqrt 7 * ceil_div 7 (ceil_sqrt 7) - 7 < ceil_sqrt 7.
Proof.
  split; [lia|].
  destruct (packer_grid_near_square 7 ltac:(lia)) as (H1 & H2 & _).
  split; [exact H1 | exact H2].
Defined.

(** ** Cells of a grid in row-major order *)

Lemma range_nonpos (n : Z) : n <= 0 -> range n = [].
Proof. intros H. unfold range. now replace (Z.to_nat n) with 0%nat by lia. Qed.

Lemma range_app (n m : Z) :
  0 <= n -> 0 <= m ->
  range (n + m) = (range n ++ map (fun i => n + i) (range m))%list.
Proof.
  intros Hn Hm. unfold range.
  replace (Z.to_nat (n + m)) with (Z.to_nat n + Z.to_nat m)%nat by lia.
  rewrite seq_app, map_app. f_equal. simpl.
  rewrite map_map.
  replace (Z.to_nat n) with (Z.to_nat n + 0)%nat at 1 by lia.
  generalize 0%nat as a.
  induction (Z.to_nat m) as [|k IH]; intros a; [reflexivity|].
  simpl. rewrite <- Nat.add_succ_r, IH. f_equal. lia.
Qed.

(** The numbers below [a*b] are the [k*b + r], with [k] below [a] and
    [r] below [b], in that order. *)
Lemma range_mul (a b : Z) :
  0 <= a ->
  range (a * b)
  = flat_map (fun k => map (fun r => k * b + r) (range b)) (range a).
Proof.
  intros Ha. destruct (Z.le_gt_cases b 0) as [Hb|Hb].
  - rewrite (range_nonpos (a * b)) by nia.
    rewrite (range_nonpos b Hb).
    induction (range a) as [|k l IH]; [reflexivity | exact IH].
  - revert a Ha. apply natlike_ind; [reflexivity|].
    intros a Ha IH. unfold Z.succ.
    replace ((a + 1) * b) with (a * b + b) by lia.
    rewrite range_app by nia. rewrite IH.
    rewrite (range_app a 1) by lia.
    rewrite flat_map_app. f_equal. simpl.
    rewrite app_nil_r. apply map_ext. intros r. lia.
Qed.

Lemma map_flat_map_in {A B C D : Type} (f : A -> B -> C) (g : A -> B -> D)
    (p : D -> C) (la : list A) (lb : list B) :
  (forall a b, In a la -> In b lb -> p (g a b) = f a b) ->
  map p (flat_map (fun a => map (g a) lb) la)
  = flat_map (fun a => map (f a) lb) la.
Proof.
  induction la as [|a la IH]; intros H; [reflexivity|].
  simpl. rewrite map_app, map_map, IH.
  - f_equal. apply map_ext_in. intros b Hb. apply H; [now left | exact Hb].
  - intros a' b Ha' Hb. apply H; [now right | exact Hb].
Qed.

Lemma grid_cells_by_index (cols rows w0 h0 : Z) :
  0 < cols -> 0 <= rows ->
  grid_cells cols rows w0 h0
  = map (fun i => (i mod cols * w0, i / cols * h0)) (range (rows * cols)).
Proof.
  intros Hc Hr. unfold grid_cells. rewrite (range_mul rows cols Hr).
  symmetry. apply map_flat_map_in.
  intros r c _ Hin. apply range_In in Hin.
  rewrite Z.add_comm, Z.mod_add, Z.div_add by lia.
  rewrite Z.mod_small, Z.div_small by lia. f_equal; lia.
Qed.

Lemma firstn_range (n m : Z) :
  0 <= n <= m -> firstn (Z.to_nat n) (range m) = range n.
Proof.
  intros H. replace m with (n + (m - n)) by lia.
  rewrite range_app by lia.
  rewrite <- (range_length n) at 1.
  rewrite firstn_app, firstn_all, Nat.sub_diag. simpl. apply app_nil_r.
Qed.

Lemma map_fst_enumerate {A : Type} (l : list A) :
  map fst (enumerate l) = range (Z.of_nat (List.length l)).
Proof.
  unfold enumerate. generalize (range_length (Z.of_nat (List.length l))).
  rewrite Nat2Z.id. generalize (range (Z.of_nat (List.length l))).
  induction l as [|a l IH]; intros [|k ks] Hlen; try discriminate;
    [reflexivity|].
  simpl. f_equal. apply IH. now inversion Hlen.
Qed.

Lemma place_all_corners (cols w0 h0 : Z) (names : list string) :
  map corner (place_all cols w0 h0 names)
  = map (fun i => (i mod cols * w0, i / cols * h0))
        (range (Z.of_nat (List.length names))).
Proof.
  rewrite <- map_fst_enumerate. unfold place_all. rewrite !map_map.
  apply map_ext. now intros [idx nm].
Qed.

Lemma place_all_length (cols w0 h0 : Z) (names : list string) :
  List.length (place_all cols w0 h0 names) = List.length names.
Proof.
  rewrite <- (place_all_names cols w0 h0 names) at 2. now rewrite length_map.
Qed.

(** X2: the packer fills its grid row after row from the top, each row
    from left to right, without leaving a cell out: the corners of the
    records are the first [n] cells of the grid. *)
Theorem packer_fills_row_major (names : list string) (png_name : string)
    (w0 h0 : Z) (sheet : Sheet) :
  pack names png_name (w0, h0) = Saved sheet ->
  let count := Z.of_nat (List.length names) in
  let cols := ceil_sqrt count in
  let rows := ceil_div count cols in
  map corner (placed sheet)
  = firstn (List.length names) (grid_cells cols rows w0 h0).
Proof.
  intros Hp count cols rows.
  destruct (pack_saved _ _ _ _ _ Hp) as [Hn ->]. fold count in Hn.
  cbn [placed]. fold count cols.
  destruct (ceil_sqrt_spec count Hn) as (Hc & _ & _). fold cols in Hc.
  destruct (ceil_div_spec count cols ltac:(lia)) as (Hr & _).
  fold rows in Hr.
  rewrite place_all_corners. fold count.
  rewrite grid_cells_by_index by nia.
  rewrite firstn_map. f_equal.
  rewrite <- (Nat2Z.id (List.length names)). fold count.
  symmetry. apply firstn_range. nia.
Qed.

Lemma packer_fills_row_major_witness :
  exists sheet,
    pack ["a"; "b"; "c"; "d"; "e"] "out.png" (16, 8) = Saved sheet
    /\ map corner (placed sheet)
       = [(0, 0); (16, 0); (32, 0); (0, 8); (16, 8)].
Proof.
  eexists. split; [reflexivity|].
  rewrite (packer_fills_row_major ["a"; "b"; "c"; "d"; "e"] "out.png" 16 8
             _ eq_refl).
  reflexivity.
Defined.

Lemma place_all_nth_inv (cols w0 h0 : Z) (names : list string) (i : nat)
    (e : AtlasEntry) :
  nth_error (place_all cols w0 h0 names) i = Some e ->
  Z.of_nat i < Z.of_nat (List.length names)
  /\ x e = Z.of_nat i mod cols * w0 /\ y e = Z.of_nat i / cols * h0
  /\ w e = w0 /\ h e = h0.
Proof.
  intros H.
  assert (Hi : (i < List.length names)%nat).
  { rewrite <- (place_all_length cols w0 h0). apply nth_error_Some.
    congruence. }
  destruct (nth_error names i) as [nm|] eqn:E;
    [|apply nth_error_None in E; lia].
  rewrite (place_all_nth _ _ _ _ _ _ E) in H. inversion H; subst e.
  repeat split. lia.
Qed.

(** X3: two icons of a packed sheet never share a pixel, and no icon
    starts left of or above the sheet: the records of two different
    indices are apart, and their corners are not negative. *)
Theorem packer_icons_apart (names : list string) (png_name : string)
    (w0 h0 : Z) (sheet : Sheet) (i j : nat) (e1 e2 : AtlasEntry) :
  0 < w0 -> 0 < h0 ->
  pack names png_name (w0, h0) = Saved sheet ->
  nth_error (placed sheet) i = Some e1 ->
  nth_error (placed sheet) j = Some e2 ->
  i <> j ->
  apart e1 e2 /\ 0 <= x e1 /\ 0 <= y e1.
Proof.
  intros Hw Hh Hp H1 H2 Hij.
  destruct (pack_saved _ _ _ _ _ Hp) as [Hn ->]. cbn [placed] in H1, H2.
  set (cols := ceil_sqrt (Z.of_nat (List.length names))) in *.
  destruct (ceil_sqrt_spec _ Hn) as (Hc & _ & _). fold cols in Hc.
  destruct (place_all_nth_inv _ _ _ _ _ _ H1) as (_ & Hx1 & Hy1 & Hw1 & Hh1).
  destruct (place_all_nth_inv _ _ _ _ _ _ H2) as (_ & Hx2 & Hy2 & Hw2 & Hh2).
  pose proof (Z.div_mod (Z.of_nat i) cols ltac:(lia)) as Di.
  pose proof (Z.div_mod (Z.of_nat j) cols ltac:(lia)) as Dj.
  pose proof (Z.mod_pos_bound (Z.of_nat i) cols ltac:(lia)) as Mi.
  pose proof (Z.mod_pos_bound (Z.of_nat j) cols ltac:(lia)) as Mj.
  pose proof (Z.div_pos (Z.of_nat i) cols ltac:(lia) ltac:(lia)) as Qi.
  unfold apart. rewrite Hx1, Hy1, Hw1, Hh1, Hx2, Hy2, Hw2, Hh2.
  split; [|split; nia].
  destruct (Z.eq_dec (Z.of_nat i mod cols) (Z.of_nat j mod cols)) as [Em|Nm].
  - assert (Z.of_nat i / cols <> Z.of_nat j / cols) by (intros Eq; nia).
    right. right.
    destruct (Z.lt_ge_cases (Z.of_nat i / cols) (Z.of_nat j / cols));
      [left | right]; nia.
  - destruct (Z.lt_ge_cases (Z.of_nat i mod cols) (Z.of_nat j mod cols));
      [left | right; left]; nia.
Qed.

Lemma packer_icons_apart_witness :
  exists sheet e1 e2,
    pack ["a"; "b"; "c"] "out.png" (16, 8) = Saved sheet
    /\ nth_error (placed sheet) 0 = Some e1
    /\ nth_error (placed sheet) 2 = Some e2
    /\ apart e1 e2.
Proof.
  eexists. eexists. eexists.
  split; [reflexivity|]. split; [reflexivity|]. split; [reflexivity|].
  exact (proj1 (packer_icons_apart ["a"; "b"; "c"] "out.png" 16 8 _ 0 2 _ _
                  ltac:(lia) ltac:(lia) eq_refl eq_refl eq_refl
                  ltac:(discriminate))).
Defined.

Lemma map_flat_map {A B C : Type} (f : B -> C) (g : A -> list B)
    (l : list A) :
  map f (flat_map g l) = flat_map (fun a => map f (g a)) l.
Proof.
  induction l as [|a l IH]; simpl; [reflexivity|].
  now rewrite map_app, IH.
Qed.

Lemma flat_map_flat_map {A B C : Type} (g : B -> list C) (f : A -> list B)
    (l : list A) :
  flat_map g (flat_map f l) = flat_map (fun a => flat_map g (f a)) l.
Proof.
  induction l as [|a l IH]; simpl; [reflexivity|].
  now rewrite flat_map_app, IH.
Qed.

Lemma flat_map_map {A B C : Type} (g : B -> list C) (f : A -> B)
    (l : list A) :
  flat_map g (map f l) = flat_map (fun a => g (f a)) l.
Proof.
  induction l as [|a l IH]; simpl; [reflexivity | now rewrite IH].
Qed.

(** ** Tiles of a PlainLabel sheet *)

(** X4: the records of a PlainLabel file go through the first
    [label_count * rows_per_group] rows of the grid, row after row and
    each row from left to right, one record a tile: every tile of these
    rows gets exactly one record, and the labels follow each other down
    the sheet without a gap. *)
Theorem plainlabel_covers_rows (tile_size sheet_w sheet_h : Z)
    (text : string) :
  label_format (read_label_lines text) = PlainLabel ->
  let cols := sheet_w / tile_size in
  let rows := sheet_h / tile_size in
  let label_count := Z.of_nat (List.length (read_label_lines text)) in
  let rows_per_group := rows / Z.max 1 label_count in
  map corner (sheet_entries tile_size sheet_w sheet_h (read_label_lines text))
  = grid_cells cols (label_count * rows_per_group) tile_size tile_size.
Proof.
  intros Hf cols rows label_count rows_per_group.
  rewrite (sheet_entries_plain _ _ _ _ Hf).
  fold cols rows label_count rows_per_group.
  unfold grid_cells.
  rewrite (range_mul label_count rows_per_group) by (unfold label_count; lia).
  rewrite flat_map_flat_map, map_flat_map.
  unfold label_count. rewrite <- map_fst_enumerate, flat_map_map.
  apply flat_map_ext. intros [k label]. cbn [fst].
  rewrite flat_map_map, map_flat_map.
  apply flat_map_ext. intros r. rewrite map_map. reflexivity.
Qed.

Lemma plainlabel_covers_rows_witness :
  label_format (read_label_lines ("foo" ++ NL ++ "bar")) = PlainLabel
  /\ map corner
       (sheet_entries 32 64 100 (read_label_lines ("foo" ++ NL ++ "bar")))
     = [(0, 0); (32, 0); (0, 32); (32, 32)].
Proof.
  split; [reflexivity|].
  rewrite (plainlabel_covers_rows 32 64 100 ("foo" ++ NL ++ "bar") eq_refl).
  reflexivity.
Defined.

(** ** The size of the records *)

Lemma plain_loop_sizes (tile_size cols rpg current_row : Z)
    (lines : list string) (e : AtlasEntry) :
  In e (plain_loop tile_size cols rpg current_row lines) ->
  w e = tile_size /\ h e = tile_size.
Proof.
  revert current_row. induction lines as [|line rest IH]; intros cr He;
    [destruct He|].
  cbn [plain_loop] in He. apply in_app_or in He. destruct He as [He|He].
  - unfold plain_block in He.
    apply in_flat_map in He. destruct He as (r & _ & He).
    apply in_map_iff in He. destruct He as (c & <- & _). now split.
  - now apply (IH _ He).
Qed.

(** X5: a record never declares another size than the cell of its
    sheet: every record of the translator is [tile_size] wide and high,
    whatever the format and the lines of the label file, and every record
    of the packer has the icon size the packer was given. *)
Theorem record_sizes_are_cell_size :
  (forall tile_size sheet_w sheet_h all_lines e,
     In e (sheet_entries tile_size sheet_w sheet_h all_lines) ->
     w e = tile_size /\ h e = tile_size)
  /\ (forall names png_name w0 h0 sheet e,
        pack names png_name (w0, h0) = Saved sheet ->
        In e (placed sheet) -> w e = w0 /\ h e = h0).
Proof.
  split.
  - intros tile_size sw sh ls e. unfold sheet_entries.
    destruct (has_row_col ls); [|destruct (has_row_num ls)]; intros He.
    + apply in_flat_map in He. destruct He as (l & _ & He).
      unfold grid_line in He.
      destruct (match_grid_line l) as [[[g1 g2] g3]|]; [|destruct He].
      destruct He as [<- | []]. now split.
    + apply in_flat_map in He. destruct He as (l & _ & He).
      unfold row_line in He.
      destruct (match_row_line l) as [[g1 g2]|]; [|destruct He].
      apply in_map_iff in He. destruct He as (c & <- & _). now split.
    + now apply plain_loop_sizes in He.
  - intros names png_name w0 h0 sheet e Hp He.
    destruct (pack_saved _ _ _ _ _ Hp) as [_ ->]. cbn [placed] in He.
    unfold place_all in He. apply in_map_iff in He.
    destruct He as ([idx nm] & <- & _). now split.
Qed.

Lemma record_sizes_are_cell_size_witness :
  Forall (fun e => w e = 32 /\ h e = 32)
    (sheet_entries 32 64 64 ["1.a sword"; "2.b. shield"; "junk"]).
Proof.
  apply Forall_forall. intros e He.
  exact (proj1 record_sizes_are_cell_size 32 64 64 _ e He).
Defined.

(** ** Lines that a format leaves out *)

Lemma space_not_lower (c : ascii) : is_space c = true -> is_lower c = false.
Proof. intros H. char_facts. Qed.

Lemma row_label_not_grid (l : string) :
  trimmed l -> IsRowLabel l -> match_grid_line l = None.
Proof.
  intros Ht Hr. apply (match_row_num_iff _ Ht) in Hr.
  unfold match_row_num in Hr. unfold match_grid_line.
  destruct (digits1 l) as [[ds rest]|]; [|reflexivity].
  destruct rest as [|d [|c rest]]; try reflexivity.
  apply andb_prop in Hr. destruct Hr as [Hd Hc].
  now rewrite (space_not_lower _ Hc), andb_false_r.
Qed.

Lemma length_flat_map_option {A B C : Type} (m : A -> option B)
    (f : A -> list C) (ls : list A) :
  (forall a, List.length (f a) = if is_some (m a) then 1%nat else 0%nat) ->
  List.length (flat_map f ls)
  = List.length (filter (fun a => is_some (m a)) ls).
Proof.
  intros H. induction ls as [|a ls IH]; [reflexivity|].
  simpl. rewrite length_app, H, IH. now destruct (is_some (m a)).
Qed.

(** X6: a GridRef file gives one record for each line that the line
    expression of the format matches and nothing for the other lines, so
    never more records than lines; a line of the RowLabel shape is among
    the lines left out.  A file that mixes the two conventions loses its
    row labels without a word. *)
Theorem gridref_drops_other_lines (tile_size sheet_w sheet_h : Z)
    (text : string) :
  label_format (read_label_lines text) = GridRef ->
  List.length
    (sheet_entries tile_size sheet_w sheet_h (read_label_lines text))
  = List.length
      (filter (fun l => is_some (match_grid_line l)) (read_label_lines text))
  /\ (List.length
        (sheet_entries tile_size sheet_w sheet_h (read_label_lines text))
      <= List.length (read_label_lines text))%nat
  /\ (forall l, In l (read_label_lines text) -> IsRowLabel l ->
        grid_line tile_size l = []).
Proof.
  intros Hf. rewrite (sheet_entries_grid _ _ _ _ Hf).
  assert (E : List.length
                (flat_map (grid_line tile_size) (read_label_lines text))
              = List.length
                  (filter (fun l => is_some (match_grid_line l))
                          (read_label_lines text))).
  { apply length_flat_map_option. intros l. unfold grid_line.
    now destruct (match_grid_line l) as [[[g1 g2] g3]|]. }
  split; [exact E | split].
  - rewrite E. apply filter_length_le.
  - intros l Hin Hr. unfold grid_line.
    now rewrite (row_label_not_grid l (read_label_lines_trimmed _ _ Hin) Hr).
Qed.

Lemma gridref_drops_other_lines_witness :
  label_format (read_label_lines ("1.a sword" ++ NL ++ "2. walk")) = GridRef
  /\ sheet_entries 32 64 64 (read_label_lines ("1.a sword" ++ NL ++ "2. walk"))
     = [mkEntry "sword" 0 0 32 32]
  /\ (List.length
        (sheet_entries 32 64 64
           (read_label_lines ("1.a sword" ++ NL ++ "2. walk")))
      <= 2)%nat.
Proof.
  split; [reflexivity|]. split; [reflexivity|].
  exact (proj1 (proj2 (gridref_drops_other_lines 32 64 64
                         ("1.a sword" ++ NL ++ "2. walk") eq_refl))).
Defined.

(** X7: a RowLabel file gives [cols] records for each line that the line
    expression of the format matches and nothing for the other lines; a
    sheet narrower than one tile gives no record at all. *)
Theorem rowlabel_record_count (tile_size sheet_w sheet_h : Z)
    (text : string) :
  label_format (read_label_lines text) = RowLabel ->
  List.length
    (sheet_entries tile_size sheet_w sheet_h (read_label_lines text))
  = (List.length
       (filter (fun l => is_some (match_row_line l)) (read_label_lines text))
     * Z.to_nat (sheet_w / tile_size))%nat
  /\ (sheet_w / tile_size <= 0 ->
      sheet_entries tile_size sheet_w sheet_h (read_label_lines text) = []).
Proof.
  intros Hf. rewrite (sheet_entries_row _ _ _ _ Hf).
  assert (E : forall ls,
             List.length (flat_map (row_line tile_size (sheet_w / tile_size)) ls)
             = (List.length (filter (fun l => is_some (match_row_line l)) ls)
                * Z.to_nat (sheet_w / tile_size))%nat).
  { induction ls as [|l ls IH]; [reflexivity|].
    simpl. rewrite length_app, IH. unfold row_line.
    destruct (match_row_line l) as [[g1 g2]|]; simpl;
      [now rewrite length_map, range_length | reflexivity]. }
  split; [apply E|].
  intros Hc. apply length_zero_iff_nil. rewrite E.
  replace (Z.to_nat (sheet_w / tile_size)) with 0%nat by lia. lia.
Qed.

Lemma rowlabel_record_count_witness :
  label_format (read_label_lines ("1. idle" ++ NL ++ "note" ++ NL ++ "2. walk"))
  = RowLabel
  /\ List.length
       (sheet_entries 32 96 64
          (read_label_lines ("1. idle" ++ NL ++ "note" ++ NL ++ "2. walk")))
     = 6%nat.
Proof.
  split; [reflexivity|].
  rewrite (proj1 (rowlabel_record_count 32 96 64
                    ("1. idle" ++ NL ++ "note" ++ NL ++ "2. walk") eq_refl)).
  reflexivity.
Defined.

(** ** What the label lines are *)

Lemma all_chars_lstrip (p : ascii -> bool) (s : string) :
  all_chars p s = true -> all_chars p (lstrip s) = true.
Proof.
  induction s as [|c s IH]; [reflexivity|]. intros H.
  cbn [lstrip]. destruct (is_space c); [|exact H].
  simpl in H. apply andb_prop in H. now apply IH.
Qed.

Lemma all_chars_rstrip (p : ascii -> bool) (s : string) :
  all_chars p s = true -> all_chars p (rstrip s) = true.
Proof.
  induction s as [|c s IH]; [reflexivity|]. intros H.
  simpl in H. apply andb_prop in H. destruct H as [Hc Hs].
  specialize (IH Hs). cbn [rstrip]. revert IH.
  destruct (rstrip s) as [|c' r]; intros IH.
  - destruct (is_space c); simpl; [reflexivity | now rewrite Hc].
  - change (p c && all_chars p (String c' r) = true). now rewrite Hc, IH.
Qed.

Lemma all_chars_strip (p : ascii -> bool) (s : string) :
  all_chars p s = true -> all_chars p (strip s) = true.
Proof. intros H. now apply all_chars_rstrip, all_chars_lstrip. Qed.

Lemma all_chars_file_lines (p : ascii -> bool) (t : string) :
  all_chars p t = true ->
  Forall (fun l => all_chars p l = true) (file_lines t).
Proof.
  induction t as [|c t IH]; [constructor|]. intros H.
  simpl in H. apply andb_prop in H. destruct H as [Hc Ht].
  specialize (IH Ht). cbn [file_lines].
  destruct (is_nl c).
  - constructor; [simpl; now rewrite Hc | exact IH].
  - destruct (file_lines t) as [|l ls].
    + repeat constructor. simpl. now rewrite Hc.
    + inversion IH as [|? ? Hl Hls]; subst. constructor; [|exact Hls].
      simpl. now rewrite Hc, Hl.
Qed.

Lemma universal_newlines_no_cr (s : string) :
  all_chars not_cr (universal_newlines s) = true.
Proof.
  induction s as [|c s IH]; [reflexivity|].
  cbn [universal_newlines]. destruct (code c =? 13)%N eqn:Hc.
  - destruct s as [|c' s']; [reflexivity|].
    destruct (is_nl c'); [exact IH|].
    change (not_cr nl && all_chars not_cr (universal_newlines (String c' s'))
            = true).
    now rewrite IH.
  - change (not_cr c && all_chars not_cr (universal_newlines s) = true).
    unfold not_cr at 1. now rewrite Hc, IH.
Qed.

Lemma universal_newlines_spaces (s : string) :
  all_chars is_space s = true ->
  all_chars is_space (universal_newlines s) = true.
Proof.
  induction s as [|c s IH]; [reflexivity|]. intros H.
  simpl in H. apply andb_prop in H. destruct H as [Hc Hs].
  specialize (IH Hs). cbn [universal_newlines].
  destruct (code c =? 13)%N.
  - destruct s as [|c' s']; [reflexivity|].
    destruct (is_nl c'); [exact IH|].
    change (is_space nl
            && all_chars is_space (universal_newlines (String c' s')) = true).
    now rewrite IH.
  - change (is_space c && all_chars is_space (universal_newlines s) = true).
    now rewrite Hc, IH.
Qed.

Lemma strip_spaces (s : string) : all_chars is_space s = true -> strip s = "".
Proof.
  intros H. unfold strip.
  assert (E : lstrip s = "").
  { induction s as [|c s IH]; [reflexivity|].
    simpl in H. apply andb_prop in H. destruct H as [Hc Hs].
    cbn [lstrip]. rewrite Hc. now apply IH. }
  now rewrite E.
Qed.

Lemma strip_nonempty_spaces (ls : list string) :
  Forall (fun l => all_chars is_space l = true) ls -> strip_nonempty ls = [].
Proof.
  unfold strip_nonempty. induction 1 as [|l ls Hl _ IH]; [reflexivity|].
  simpl. now rewrite (strip_spaces l Hl).
Qed.

(** X8: the lines handed to the classifier are clean.  None is empty,
    none has white space at either end (stripping one again changes
    nothing), none holds a line feed or a carriage return, whatever the
    line ends of the file are; and there are never more of them than
    lines in the file. *)
Theorem label_lines_are_clean (text : string) :
  (forall l, In l (read_label_lines text) ->
     l <> "" /\ strip l = l
     /\ all_chars not_nl l = true /\ all_chars not_cr l = true)
  /\ (List.length (read_label_lines text)
      <= List.length (file_lines (universal_newlines text)))%nat.
Proof.
  split.
  - intros l Hin.
    destruct (read_label_lines_trimmed _ _ Hin) as (Hh & Hl & Hn).
    repeat split.
    + intros ->. discriminate.
    + now apply strip_fix.
    + exact Hn.
    + unfold read_label_lines, strip_nonempty in Hin.
      apply in_map_iff in Hin. destruct Hin as (l0 & <- & Hin).
      apply filter_In in Hin. destruct Hin as [Hin _].
      apply all_chars_strip.
      pose proof (all_chars_file_lines not_cr _
                    (universal_newlines_no_cr text)) as Hall.
      rewrite Forall_forall in Hall. now apply Hall.
  - unfold read_label_lines, strip_nonempty.
    rewrite length_map. apply filter_length_le.
Qed.

(** X9: a label file that holds white space only, or nothing, is a
    PlainLabel file without a label; [max(1, label_count)] keeps the
    division defined, no record is made, and the atlas that is written
    says [Total sprites: 0]. *)
Theorem blank_label_file (text : string) :
  all_chars is_space text = true ->
  read_label_lines text = []
  /\ label_format (read_label_lines text) = PlainLabel
  /\ forall tile_size sheet_name sheet_w sheet_h,
       translate_sheet tile_size sheet_name
         (mkFiles (Some (sheet_w, sheet_h)) (Some text))
       = Written ("32rogues-" ++ sheet_name ++ ".png")
           ("32rogues-" ++ sheet_name ++ "-atlas.txt")
           (atlas_text ("32rogues-" ++ sheet_name ++ ".png") 0
              sheet_w sheet_h tile_size tile_size [])
           [].
Proof.
  intros H.
  assert (E : read_label_lines text = []).
  { apply strip_nonempty_spaces, all_chars_file_lines.
    now apply universal_newlines_spaces. }
  split; [exact E | split].
  - now rewrite E.
  - intros tile_size sheet_name sw sh.
    unfold translate_sheet. cbn [png txt]. now rewrite E.
Qed.

Lemma blank_label_file_witness :
  all_chars is_space (" " ++ NL ++ String cr NL ++ TAB) = true
  /\ read_label_lines (" " ++ NL ++ String cr NL ++ TAB) = []
  /\ label_format (read_label_lines (" " ++ NL ++ String cr NL ++ TAB))
     = PlainLabel.
Proof.
  split; [reflexivity|].
  destruct (blank_label_file (" " ++ NL ++ String cr NL ++ TAB) eq_refl)
    as (H1 & H2 & _).
  split; [exact H1 | exact H2].
Defined.

(** ** What the natural key does not see *)

Lemma code_ascii_of_N (n : N) : (n < 256)%N -> code (ascii_of_N n) = n.
Proof. intros H. unfold code. now apply N_ascii_embedding. Qed.

Lemma code_bound (c : ascii) : (code c < 256)%N.
Proof. apply N_ascii_bounded. Qed.

Lemma lower_char_digit (c : ascii) :
  is_digit (lower_char c) = is_digit c.
Proof.
  unfold lower_char. destruct (is_upper c) eqn:Hu; [|reflexivity].
  unfold is_digit, is_upper, between in *.
  apply andb_prop in Hu. destruct Hu as [H1 H2].
  apply N.leb_le in H1. apply N.leb_le in H2.
  rewrite code_ascii_of_N by lia.
  replace (code c + 32 <=? 57)%N with false by (symmetry; apply N.leb_gt; lia).
  replace (code c <=? 57)%N with false by (symmetry; apply N.leb_gt; lia).
  now rewrite !andb_false_r.
Qed.

Lemma lower_char_of_digit (c : ascii) :
  is_digit c = true -> lower_char c = c.
Proof.
  intros H. unfold lower_char.
  replace (is_upper c) with false; [reflexivity|].
  symmetry. char_facts.
Qed.

Lemma lower_char_idem (c : ascii) : lower_char (lower_char c) = lower_char c.
Proof.
  unfold lower_char at 2 3. destruct (is_upper c) eqn:Hu; unfold lower_char.
  - replace (is_upper (ascii_of_N (code c + 32))) with false; [reflexivity|].
    unfold is_upper, between in *.
    apply andb_prop in Hu. destruct Hu as [H1 H2].
    apply N.leb_le in H1. apply N.leb_le in H2.
    rewrite code_ascii_of_N by lia.
    symmetry. apply andb_false_iff. right. apply N.leb_gt. lia.
  - now rewrite Hu.
Qed.

Lemma lower_idem (s : string) : lower (lower s) = lower s.
Proof.
  induction s as [|c s IH]; [reflexivity|].
  simpl. now rewrite lower_char_idem, IH.
Qed.

Lemma lower_digits (s : string) :
  all_chars is_digit s = true -> lower s = s.
Proof.
  induction s as [|c s IH]; [reflexivity|]. intros H.
  simpl in H. apply andb_prop in H. destruct H as [Hc Hs].
  simpl. now rewrite (lower_char_of_digit c Hc), (IH Hs).
Qed.

Lemma isdigit_lower (s : string) : isdigit (lower s) = isdigit s.
Proof.
  unfold isdigit. f_equal; [now destruct s|].
  induction s as [|c s IH]; [reflexivity|].
  simpl. now rewrite lower_char_digit, IH.
Qed.

Lemma re_split_digits_lower (s : string) :
  re_split_digits (lower s) = map lower (re_split_digits s).
Proof.
  induction s as [|c s IH]; [reflexivity|].
  cbn [lower re_split_digits]. rewrite lower_char_digit, IH.
  destruct (is_digit c) eqn:Hc.
  - rewrite (lower_char_of_digit c Hc).
    destruct (re_split_digits s) as [|t [|d rest]]; [|destruct t..];
      cbn [map lower]; now rewrite ?(lower_char_of_digit c Hc).
  - now destruct (re_split_digits s) as [|t rest].
Qed.

Lemma natural_sort_key_lower (s : string) :
  natural_sort_key (lower s) = natural_sort_key s.
Proof.
  unfold natural_sort_key. rewrite re_split_digits_lower, map_map.
  apply map_ext. intros p. rewrite isdigit_lower.
  destruct (isdigit p) eqn:Hp.
  - unfold isdigit in Hp. apply andb_prop in Hp. destruct Hp as [_ Hp].
    now rewrite (lower_digits p Hp).
  - now rewrite lower_idem.
Qed.

Lemma tie_iff (a b : string) :
  tie a b = true <-> natural_sort_key a = natural_sort_key b.
Proof.
  unfold tie. split.
  - intros H.
    destruct (natural_total a b) as [E | [L | L]]; [exact E | |];
      unfold natural_lt in L; rewrite L in H;
      [discriminate | destruct (key_lt _ _) as [[]|]; discriminate].
  - intros ->. now rewrite key_lt_irrefl.
Qed.

(** X10: the natural key does not see the case of the letters nor the
    zeros in front of a number: a name and its lower-case form have the
    same key, two names that differ by case only tie, and a zero put in
    front of a digit run leaves the key as it is. *)
Theorem key_ignores_case_and_zeros :
  (forall s, natural_sort_key (lower s) = natural_sort_key s)
  /\ (forall a b, lower a = lower b -> tie a b = true)
  /\ (forall t d s,
        digit_free t -> isdigit d = true -> stops is_digit s ->
        natural_sort_key (t ++ String "0" d ++ s)
        = natural_sort_key (t ++ d ++ s)).
Proof.
  split; [apply natural_sort_key_lower | split].
  - intros a b H. apply tie_iff.
    now rewrite <- (natural_sort_key_lower a), H, natural_sort_key_lower.
  - intros t d s Ht Hd Hs.
    rewrite (natural_sort_key_runs t (String "0" d) s Ht);
      [|rewrite isdigit_cons; unfold isdigit in Hd;
        apply andb_prop in Hd; now destruct Hd as [_ ->] | exact Hs].
    now rewrite (natural_sort_key_runs t d s Ht Hd Hs).
Qed.

Lemma key_ignores_case_and_zeros_witness :
  tie "Fa1.PNG" "fa1.png" = true
  /\ natural_sort_key ("fa" ++ "07" ++ ".png")
     = natural_sort_key ("fa" ++ "7" ++ ".png").
Proof.
  destruct key_ignores_case_and_zeros as (_ & Hcase & Hzero).
  split; [exact (Hcase "Fa1.PNG" "fa1.png" eq_refl)|].
  exact (Hzero "fa" "7" ".png" eq_refl eq_refl eq_refl).
Defined.

(** X11: two names that differ in one number only come in the order of
    the numbers, whatever the count of their digits: with the same text
    before and the same rest after, the name with the smaller integer is
    the smaller one (fa2 before fa10). *)
Theorem numbered_names_in_numeric_order (t d1 d2 s : string) :
  digit_free t -> isdigit d1 = true -> isdigit d2 = true ->
  stops is_digit s ->
  key_lt (natural_sort_key (t ++ d1 ++ s)) (natural_sort_key (t ++ d2 ++ s))
  = Some (int d1 <? int d2).
Proof.
  intros Ht H1 H2 Hs.
  rewrite (natural_sort_key_runs t d1 s Ht H1 Hs).
  rewrite (natural_sort_key_runs t d2 s Ht H2 Hs).
  cbn [key_lt part_eqb part_lt]. rewrite String.eqb_refl.
  destruct (Z.eqb_spec (int d1) (int d2)) as [E|N]; [|reflexivity].
  rewrite key_lt_irrefl, E. now rewrite Z.ltb_irrefl.
Qed.

Lemma numbered_names_in_numeric_order_witness :
  key_lt (natural_sort_key "fa2.png") (natural_sort_key "fa10.png")
  = Some true
  /\ key_lt (natural_sort_key "fa10.png") (natural_sort_key "fa2.png")
     = Some false.
Proof.
  split.
  - exact (numbered_names_in_numeric_order "fa" "2" "10" ".png"
             eq_refl eq_refl eq_refl eq_refl).
  - exact (numbered_names_in_numeric_order "fa" "10" "2" ".png"
             eq_refl eq_refl eq_refl eq_refl).
Defined.

(** ** The collected sequence *)

Lemma insert_keeps_ties (a x : string) (l l' : list string) :
  insert natural_sort_key key_lt x l = Some l' ->
  filter (tie a) l' = filter (tie a) (x :: l).
Proof.
  revert l'. induction l as [|y l IH]; intros l' H.
  - inversion H. reflexivity.
  - cbn [insert] in H.
    destruct (key_lt (natural_sort_key y) (natural_sort_key x))
      as [[]|] eqn:E; try discriminate.
    + destruct (insert natural_sort_key key_lt x l) as [s|]; [|discriminate].
      inversion H; subst l'. cbn [filter]. rewrite (IH s eq_refl).
      cbn [filter].
      destruct (tie a x) eqn:Tx; destruct (tie a y) eqn:Ty; try reflexivity.
      apply tie_iff in Tx. apply tie_iff in Ty.
      rewrite <- Tx, <- Ty, key_lt_irrefl in E. discriminate.
    + inversion H. reflexivity.
Qed.

(** X12: sorting by the natural key is stable: the names of one key (the
    names that tie with some name [a]) stand in the sorted sequence in
    the order they had in the listing. *)
Theorem natural_sort_stable (l l' : list string) (a : string) :
  sorted natural_sort_key key_lt l = Some l' ->
  filter (tie a) l' = filter (tie a) l
  /\ (forall b, tie a b = true <-> natural_sort_key a = natural_sort_key b).
Proof.
  intros H. split; [|intros b; apply tie_iff].
  revert l' H. induction l as [|x l IH]; intros l' H.
  - inversion H. reflexivity.
  - cbn [sorted] in H.
    destruct (sorted natural_sort_key key_lt l) as [s|]; [|discriminate].
    rewrite (insert_keeps_ties a x s l' H). cbn [filter].
    now rewrite (IH s eq_refl).
Qed.

Lemma natural_sort_stable_witness :
  exists l',
    sorted natural_sort_key key_lt ["fa2"; "FA1"; "b"; "fa01"; "fa1"]
    = Some l'
    /\ filter (tie "fa1") l' = ["FA1"; "fa01"; "fa1"].
Proof.
  eexists. split; [reflexivity|].
  exact (proj1 (natural_sort_stable ["fa2"; "FA1"; "b"; "fa01"; "fa1"] _
                  "fa1" eq_refl)).
Defined.

Lemma sorted_of_sorted (l : list string) :
  StronglySorted natural_le l ->
  sorted natural_sort_key key_lt l = Some l.
Proof.
  induction 1 as [|x l Hs IH Hx]; [reflexivity|].
  cbn [sorted]. rewrite IH. destruct l as [|y l]; [reflexivity|].
  cbn [insert]. apply Forall_inv in Hx. unfold natural_le in Hx.
  now rewrite Hx.
Qed.

Lemma sorted_perm_unique (l1 l2 : list string) :
  (forall a b, In a l1 -> In b l1 ->
     natural_sort_key a = natural_sort_key b -> a = b) ->
  Permutation l1 l2 ->
  StronglySorted natural_le l1 -> StronglySorted natural_le l2 ->
  l1 = l2.
Proof.
  revert l2. induction l1 as [|a l1 IH]; intros l2 Hinj Hp H1 H2.
  - apply Permutation_nil in Hp. now subst.
  - destruct l2 as [|b l2];
      [apply Permutation_sym, Permutation_nil in Hp; discriminate|].
    apply StronglySorted_inv in H1. destruct H1 as [H1 Ha].
    apply StronglySorted_inv in H2. destruct H2 as [H2 Hb].
    rewrite Forall_forall in Ha, Hb.
    assert (Hab : a = b).
    { assert (Inb : In b (a :: l1))
        by (apply (Permutation_in b (Permutation_sym Hp)); now left).
      assert (Ina : In a (b :: l2))
        by (apply (Permutation_in a Hp); now left).
      destruct Inb as [E|Inb]; [exact E|].
      destruct Ina as [E|Ina]; [now symmetry|].
      apply Hinj; [now left | now right|].
      pose proof (Ha b Inb) as Lab. pose proof (Hb a Ina) as Lba.
      apply natural_le_iff in Lab. destruct Lab as [L|E]; [|exact E].
      unfold natural_le, natural_lt in *. congruence. }
    subst b. f_equal. apply IH; try assumption.
    + intros x y Hx Hy. apply Hinj; now right.
    + now apply Permutation_cons_inv in Hp.
Qed.

(** X13: the collected sequence does not depend on the order in which
    the directory lists its files, as long as no two file names have the
    same key: two listings of the same names sort to the same sequence;
    and sorting a sorted sequence again leaves it as it is. *)
Theorem sorted_ignores_listing_order (l1 l2 s1 s2 : list string) :
  Permutation l1 l2 ->
  (forall a b, In a l1 -> In b l1 ->
     natural_sort_key a = natural_sort_key b -> a = b) ->
  sorted natural_sort_key key_lt l1 = Some s1 ->
  sorted natural_sort_key key_lt l2 = Some s2 ->
  s1 = s2 /\ sorted natural_sort_key key_lt s1 = Some s1.
Proof.
  intros Hp Hinj E1 E2.
  destruct (sorted_natural l1) as (s1' & E1' & P1 & S1).
  destruct (sorted_natural l2) as (s2' & E2' & P2 & S2).
  rewrite E1 in E1'. inversion E1'; subst s1'.
  rewrite E2 in E2'. inversion E2'; subst s2'.
  split; [|now apply sorted_of_sorted].
  apply sorted_perm_unique; try assumption.
  - intros a b Ha Hb. apply Hinj;
      apply (Permutation_in _ (Permutation_sym P1)); assumption.
  - apply perm_trans with l1; [now apply Permutation_sym|].
    now apply perm_trans with l2.
Qed.

Lemma sorted_ignores_listing_order_witness :
  sorted natural_sort_key key_lt ["fa10.png"; "fa2.png"; "fa1.png"]
  = sorted natural_sort_key key_lt ["fa2.png"; "fa1.png"; "fa10.png"].
Proof.
  assert (Hp : Permutation ["fa10.png"; "fa2.png"; "fa1.png"]
                 ["fa2.png"; "fa1.png"; "fa10.png"]).
  { apply perm_trans with ["fa2.png"; "fa10.png"; "fa1.png"];
      [apply perm_swap | apply perm_skip, perm_swap]. }
  assert (Hinj : forall a b,
             In a ["fa10.png"; "fa2.png"; "fa1.png"] ->
             In b ["fa10.png"; "fa2.png"; "fa1.png"] ->
             natural_sort_key a = natural_sort_key b -> a = b).
  { intros a b [<-|[<-|[<-|[]]]] [<-|[<-|[<-|[]]]] H;
      try reflexivity; vm_compute in H; discriminate. }
  destruct (sorted_ignores_listing_order _ _ _ _ Hp Hinj eq_refl eq_refl)
    as [E _].
  exact (f_equal Some E).
Defined.

(** ** What the packing functions return *)

Lemma pack_outcome (names : list string) (png_name : string)
    (icon_size : Z * Z) :
  pack names png_name icon_size <> Raised
  /\ (pack names png_name icon_size = NoPngs <-> names = []).
Proof.
  destruct names as [|n0 names]; simpl.
  - split; [discriminate | tauto].
  - destruct icon_size as [w0 h0]. split; [discriminate|].
    split; discriminate.
Qed.

(** X14: [create_spritesheet_from_dir] never fails on the sorting of the
    file names.  It returns without saving exactly when the listing has
    no name that ends in [.png], whatever the case of the letters; and
    when it saves, the records are those of the [.png] names of the
    listing, each taken once, in natural order, and the atlas counts as
    many sprites as it has record lines. *)
Theorem from_dir_outcome (listing : list string) (png_name : string)
    (w0 h0 : Z) (name_fn : option (string -> string)) :
  create_spritesheet_from_dir listing png_name (w0, h0) name_fn <> Raised
  /\ (create_spritesheet_from_dir listing png_name (w0, h0) name_fn = NoPngs
      <-> forall f, In f listing -> is_png f = false)
  /\ (forall sheet,
        create_spritesheet_from_dir listing png_name (w0, h0) name_fn
        = Saved sheet ->
        exists files,
          Permutation (filter is_png listing) files
          /\ StronglySorted natural_le files
          /\ map name (placed sheet)
             = map (fun fname => match name_fn with
                                 | Some f => f fname
                                 | None => splitext_root fname
                                 end) files
          /\ atlas sheet
             = atlas_text png_name (Z.of_nat (List.length (placed sheet)))
                 (sheet_w sheet) (sheet_h sheet) w0 h0
                 (map atlas_line (placed sheet))).
Proof.
  destruct (sorted_natural (filter is_png listing)) as (files & E & P & S).
  unfold create_spritesheet_from_dir, collect_dir. rewrite E.
  set (name_of := fun fname : string =>
                    match name_fn with
                    | Some f => f fname
                    | None => splitext_root fname
                    end).
  destruct (pack_outcome (map name_of files) png_name (w0, h0)) as [Hr Hn].
  split; [exact Hr | split].
  - rewrite Hn. split.
    + intros Hm f Hf.
      destruct (is_png f) eqn:Hp; [|reflexivity].
      assert (Hin : In f files)
        by (apply (Permutation_in f P), filter_In; now split).
      destruct files; [destruct Hin | discriminate].
    + intros Hall. destruct files as [|f files]; [reflexivity|].
      assert (Hin : In f (filter is_png listing))
        by (apply (Permutation_in f (Permutation_sym P)); now left).
      apply filter_In in Hin. destruct Hin as [Hin Hp].
      rewrite (Hall f Hin) in Hp. discriminate.
  - intros sheet Hs. exists files.
    destruct (pack_saved _ _ _ _ _ Hs) as [_ ->]. cbn [placed atlas sheet_w sheet_h].
    repeat split; try assumption.
    + apply place_all_names.
    + now rewrite place_all_length.
Qed.

Lemma sorted_str (l : list string) :
  exists l',
    sorted (fun c => c) str_lt l = Some l'
    /\ Permutation l l' /\ StronglySorted str_le l'.
Proof.
  assert (Hle : forall a b c, str_le a b -> str_le b c -> str_le a c).
  { unfold str_le. intros a b c Hab Hbc.
    destruct (String.ltb c a) eqn:Hca; [|reflexivity].
    destruct (string_ltb_total a b) as [-> | [H|H]]; [congruence| |congruence].
    destruct (string_ltb_total b c) as [-> | [H'|H']]; [congruence| |congruence].
    pose proof (string_ltb_trans _ _ _ H H') as Hac.
    apply string_ltb_asym in Hac. congruence. }
  assert (Hins : forall x s, StronglySorted str_le s ->
             exists s', insert (fun c => c) str_lt x s = Some s'
                        /\ Permutation (x :: s) s'
                        /\ StronglySorted str_le s').
  { intros x s. induction s as [|y s IH]; intros Hs.
    - exists [x]. repeat split; [apply Permutation_refl|].
      constructor; constructor.
    - cbn [insert]. unfold str_lt at 1.
      apply StronglySorted_inv in Hs. destruct Hs as [Hs Hy].
      destruct (String.ltb y x) eqn:Hyx.
      + destruct (IH Hs) as (s' & Hi & Hp & Hs').
        exists (y :: s'). rewrite Hi. repeat split.
        * apply perm_trans with (y :: x :: s);
            [apply perm_swap | now apply perm_skip].
        * constructor; [exact Hs'|].
          apply (Permutation_Forall Hp). constructor; [|exact Hy].
          now apply string_ltb_asym.
      + exists (x :: y :: s). repeat split; [apply Permutation_refl|].
        constructor; [now constructor|].
        constructor; [exact Hyx|].
        apply Forall_forall. intros z Hz.
        apply (Hle x y z); [exact Hyx|].
        rewrite Forall_forall in Hy. now apply Hy. }
  induction l as [|x l IH].
  - exists []. repeat split; constructor.
  - destruct IH as (s & Hs & Hp & Hss).
    destruct (Hins x s Hss) as (l' & Hi & Hp' & Hs').
    exists l'. cbn [sorted]. rewrite Hs. repeat split; try assumption.
    apply perm_trans with (x :: s); [now apply perm_skip | exact Hp'].
Qed.

Lemma collect_categories_flat (subdir : string -> option (list string))
    (categories : list string) :
  collect_categories subdir categories
  = Some (flat_map (category_icons subdir) categories).
Proof.
  induction categories as [|category rest IH]; [reflexivity|].
  cbn [collect_categories flat_map]. unfold category_icons at 1.
  destruct (subdir category) as [listing|]; [|exact IH].
  destruct (sorted_natural listing) as (fnames & E & _). rewrite E, IH.
  reflexivity.
Qed.

Lemma category_icons_In (subdir : string -> option (list string))
    (category n : string) :
  In n (category_icons subdir category)
  <-> exists listing fname,
        subdir category = Some listing /\ In fname listing
        /\ is_png fname = true
        /\ n = category ++ "/" ++ splitext_root fname.
Proof.
  unfold category_icons. destruct (subdir category) as [listing|].
  - destruct (sorted_natural listing) as (fnames & E & P & _). rewrite E.
    rewrite in_map_iff. split.
    + intros (fname & <- & Hin). apply filter_In in Hin.
      destruct Hin as [Hin Hp]. exists listing, fname.
      repeat split; try assumption.
      now apply (Permutation_in fname (Permutation_sym P)).
    + intros (listing' & fname & Hl & Hin & Hp & ->).
      inversion Hl; subst listing'. exists fname. split; [reflexivity|].
      apply filter_In. split; [|exact Hp].
      now apply (Permutation_in fname P).
  - split; [intros [] | intros (listing & fname & H & _); discriminate].
Qed.

(** X15: [create_spritesheet_from_categorized_dirs] never fails on its
    two sortings.  It goes through the entries of the base directory in
    plain string order, takes nothing from an entry that is no directory,
    and packs, category after category, the names [category/stem] of the
    [.png] files of each directory; so a record name is there exactly
    for a [.png] file of a directory of the base, and nothing is saved
    exactly when there is no such file. *)
Theorem categorized_outcome (base_dir : list string)
    (subdir : string -> option (list string)) (png_name : string)
    (w0 h0 : Z) :
  create_spritesheet_from_categorized_dirs base_dir subdir png_name (w0, h0)
  <> Raised
  /\ (exists categories,
        Permutation base_dir categories
        /\ StronglySorted str_le categories
        /\ create_spritesheet_from_categorized_dirs base_dir subdir png_name
             (w0, h0)
           = pack (flat_map (category_icons subdir) categories) png_name
               (w0, h0))
  /\ (create_spritesheet_from_categorized_dirs base_dir subdir png_name
        (w0, h0) = NoPngs
      <-> forall category listing fname,
            In category base_dir -> subdir category = Some listing ->
            In fname listing -> is_png fname = false)
  /\ (forall sheet n,
        create_spritesheet_from_categorized_dirs base_dir subdir png_name
          (w0, h0) = Saved sheet ->
        In n (map name (placed sheet))
        <-> exists category listing fname,
              In category base_dir /\ subdir category = Some listing
              /\ In fname listing /\ is_png fname = true
              /\ n = category ++ "/" ++ splitext_root fname).
Proof.
  destruct (sorted_str base_dir) as (cats & E & P & S).
  unfold create_spritesheet_from_categorized_dirs.
  rewrite E, collect_categories_flat.
  set (names := flat_map (category_icons subdir) cats).
  assert (Hnames : forall n,
             In n names
             <-> exists category listing fname,
                   In category base_dir /\ subdir category = Some listing
                   /\ In fname listing /\ is_png fname = true
                   /\ n = category ++ "/" ++ splitext_root fname).
  { intros n. unfold names. rewrite in_flat_map. split.
    - intros (category & Hc & Hn). apply category_icons_In in Hn.
      destruct Hn as (listing & fname & Hl & Hf & Hp & ->).
      exists category, listing, fname. repeat split; try assumption.
      now apply (Permutation_in category (Permutation_sym P)).
    - intros (category & listing & fname & Hc & Hl & Hf & Hp & ->).
      exists category. split; [now apply (Permutation_in category P)|].
      apply category_icons_In. now exists listing, fname. }
  destruct (pack_outcome names png_name (w0, h0)) as [Hr Hn].
  split; [exact Hr | split; [|split]].
  - now exists cats.
  - rewrite Hn. split.
    + intros Hm category listing fname Hc Hl Hf.
      destruct (is_png fname) eqn:Hp; [|reflexivity].
      assert (Hin : In (category ++ "/" ++ splitext_root fname) names)
        by (apply Hnames; now exists category, listing, fname).
      rewrite Hm in Hin. destruct Hin.
    + intros Hall. destruct names as [|n names'] eqn:En; [reflexivity|].
      assert (Hin : In n (n :: names')) by now left.
      apply Hnames in Hin.
      destruct Hin as (category & listing & fname & Hc & Hl & Hf & Hp & _).
      rewrite (Hall category listing fname Hc Hl Hf) in Hp. discriminate.
  - intros sheet n Hs.
    destruct (pack_saved _ _ _ _ _ Hs) as [_ ->]. cbn [placed].
    rewrite place_all_names. apply Hnames.
Qed.

(** ** The name of an icon *)

Lemma cut_last_dot_none (s : string) :
  all_chars (fun c => negb (is_dot c)) s = true -> cut_last_dot s = None.
Proof.
  induction s as [|c s IH]; [reflexivity|]. intros H.
  simpl in H. apply andb_prop in H. destruct H as [Hc Hs].
  apply negb_true_iff in Hc. cbn [cut_last_dot]. now rewrite (IH Hs), Hc.
Qed.

Lemma cut_last_dot_app (stem s r : string) :
  cut_last_dot s = Some r -> cut_last_dot (stem ++ s) = Some (stem ++ r).
Proof.
  intros H. induction stem as [|c stem IH]; [exact H|].
  cbn [append cut_last_dot]. now rewrite IH.
Qed.

(** X16: the name of an icon is its file name without the extension:
    for a stem that is not made of dots only and an extension without a
    dot, [splitext] gives the stem back.  A file name whose stem is empty
    or made of dots only (".png") keeps its extension in the name, and so
    does a name without a dot. *)
Theorem splitext_root_stem (stem ext : string) :
  all_chars (fun c => negb (is_dot c)) ext = true ->
  (all_chars is_dot stem = false ->
   splitext_root (stem ++ "." ++ ext) = stem)
  /\ (all_chars is_dot stem = true ->
      splitext_root (stem ++ "." ++ ext) = stem ++ "." ++ ext)
  /\ splitext_root ext = ext.
Proof.
  intros He.
  assert (Hc : cut_last_dot (stem ++ "." ++ ext) = Some stem).
  { rewrite <- (append_nil_r stem) at 2. apply cut_last_dot_app.
    change ("." ++ ext) with (String "." ext).
    cbn [cut_last_dot]. now rewrite (cut_last_dot_none ext He). }
  unfold splitext_root. rewrite Hc, (cut_last_dot_none ext He).
  repeat split; now intros ->.
Qed.

Lemma splitext_root_stem_witness :
  splitext_root ("fa10" ++ "." ++ "png") = "fa10"
  /\ splitext_root ("" ++ "." ++ "png") = ".png"
  /\ splitext_root ("archive.tar" ++ "." ++ "PNG") = "archive.tar".
Proof.
  split; [|split].
  - exact (proj1 (splitext_root_stem "fa10" "png" eq_refl) eq_refl).
  - exact (proj1 (proj2 (splitext_root_stem "" "png" eq_refl)) eq_refl).
  - exact (proj1 (splitext_root_stem "archive.tar" "PNG" eq_refl) eq_refl).
Defined.

(** ** The names of the frames *)

Lemma str_inj (a b : Z) : str a = str b -> a = b.
Proof.
  unfold str. intros H. apply DecimalZ.to_int_inj.
  assert (Hn : forall n, Z.to_int n <> Decimal.Pos Decimal.Nil
                         /\ Z.to_int n <> Decimal.Neg Decimal.Nil).
  { intros [|p|p]; simpl; split; try discriminate;
      intros E; inversion E as [E'];
      now apply (DecimalPos.Unsigned.to_uint_nonnil p). }
  apply (f_equal NilZero.int_of_string) in H.
  rewrite !NilZero.isi in H by apply Hn. now inversion H.
Qed.

Lemma append_inj_l (p a b : string) : p ++ a = p ++ b -> a = b.
Proof.
  induction p as [|c p IH]; [trivial|]. simpl. intros H.
  inversion H. now apply IH.
Qed.

Lemma length_append (a b : string) :
  String.length (a ++ b) = (String.length a + String.length b)%nat.
Proof. induction a as [|c a IH]; simpl; [reflexivity | now rewrite IH]. Qed.

Lemma append_inj_r (a b s : string) : a ++ s = b ++ s -> a = b.
Proof.
  revert b. induction a as [|c a IH]; intros [|c' b] H; simpl in H.
  - reflexivity.
  - apply (f_equal String.length) in H. simpl in H.
    rewrite length_append in H. lia.
  - apply (f_equal String.length) in H. simpl in H.
    rewrite length_append in H. lia.
  - inversion H. f_equal. now apply IH.
Qed.

Lemma range_NoDup (n : Z) : NoDup (range n).
Proof.
  unfold range. generalize 0%nat.
  induction (Z.to_nat n) as [|k IH]; intros a; [constructor|].
  simpl. constructor; [|apply IH].
  rewrite in_map_iff. intros (i & Hi & Hin). apply in_seq in Hin. lia.
Qed.

Lemma NoDup_map_inj {A B : Type} (f : A -> B) (l : list A) :
  (forall a b, f a = f b -> a = b) -> NoDup l -> NoDup (map f l).
Proof.
  intros Hf. induction 1 as [|a l Ha _ IH]; [constructor|].
  simpl. constructor; [|exact IH].
  rewrite in_map_iff. intros (b & Hb & Hin). apply Hf in Hb. now subst.
Qed.

(** X17: the frames of one RowLabel line have names of their own: no
    two records made from a line carry the same name, and none stands on
    the tile of another. *)
Theorem frame_names_distinct (tile_size cols : Z) (line : string) :
  tile_size <> 0 ->
  NoDup (map name (row_line tile_size cols line))
  /\ NoDup (map corner (row_line tile_size cols line)).
Proof.
  intros Ht. unfold row_line.
  destruct (match_row_line line) as [[g1 g2]|]; [|split; constructor].
  rewrite !map_map. cbn [name corner x y]. split.
  - apply NoDup_map_inj; [|apply range_NoDup].
    intros a b H. apply append_inj_l, append_inj_l in H.
    apply append_inj_r in H. now apply str_inj.
  - apply NoDup_map_inj; [|apply range_NoDup].
    intros a b H. inversion H. nia.
Qed.

Lemma frame_names_distinct_witness :
  32 <> 0
  /\ map name (row_line 32 3 "2. walk")
     = ["walk [frame 0]"; "walk [frame 1]"; "walk [frame 2]"]
  /\ NoDup (map name (row_line 32 3 "2. walk")).
Proof.
  split; [discriminate|]. split; [reflexivity|].
  exact (proj1 (frame_names_distinct 32 3 "2. walk" ltac:(discriminate))).
Defined.

(** ** Records left of or above the sheet *)

Lemma int_acc_nonneg (s : string) (acc : Z) :
  all_chars is_digit s = true -> 0 <= acc -> 0 <= int_acc acc s.
Proof.
  revert acc. induction s as [|c s IH]; intros acc H Hacc; [exact Hacc|].
  simpl in H. apply andb_prop in H. destruct H as [Hc Hs].
  cbn [int_acc]. apply IH; [exact Hs|].
  unfold digit_val. char_facts.
Qed.

Lemma int_nonneg (s : string) : isdigit s = true -> 0 <= int s.
Proof.
  unfold isdigit, int. intros H. apply andb_prop in H.
  apply int_acc_nonneg; [tauto | lia].
Qed.

Lemma plain_loop_nonneg (tile_size cols rpg current_row : Z)
    (lines : list string) (e : AtlasEntry) :
  0 < tile_size -> 0 <= current_row ->
  In e (plain_loop tile_size cols rpg current_row lines) ->
  0 <= x e /\ 0 <= y e.
Proof.
  intros Ht. revert current_row.
  induction lines as [|line rest IH]; intros cr Hcr He; [destruct He|].
  cbn [plain_loop] in He. apply in_app_or in He. destruct He as [He|He].
  - unfold plain_block in He.
    apply in_flat_map in He. destruct He as (r & Hr & He).
    apply in_map_iff in He. destruct He as (c & <- & Hc).
    apply range_In in Hr. apply range_In in Hc. cbn [x y]. split; nia.
  - destruct (Z.le_gt_cases rpg 0) as [Hneg|Hpos].
    + clear -He Hneg. exfalso. revert He. generalize (cr + rpg).
      induction rest as [|l rest IH]; intros z He; [destruct He|].
      cbn [plain_loop] in He. apply in_app_or in He.
      destruct He as [He|He]; [|now apply (IH _ He)].
      unfold plain_block in He. rewrite (range_nonpos rpg Hneg) in He.
      destruct He.
    + apply (IH (cr + rpg)); [lia | exact He].
Qed.

(** X18: a record of the translator never starts left of the sheet, and
    it starts above the sheet only for a line numbered 0, one tile
    above: [x] is not negative and [y] is at least [-tile_size], in every
    format and for every list of lines; the records of a PlainLabel file
    never start above the sheet. *)
Theorem entries_not_left_of_sheet (tile_size sheet_w sheet_h : Z)
    (all_lines : list string) (e : AtlasEntry) :
  0 < tile_size ->
  In e (sheet_entries tile_size sheet_w sheet_h all_lines) ->
  0 <= x e /\ - tile_size <= y e
  /\ (label_format all_lines = PlainLabel -> 0 <= y e).
Proof.
  intros Ht. unfold sheet_entries, label_format.
  destruct (has_row_col all_lines); [|destruct (has_row_num all_lines)];
    intros He.
  - apply in_flat_map in He. destruct He as (l & _ & He).
    unfold grid_line in He.
    destruct (match_grid_line l) as [[[g1 g2] g3]|] eqn:E; [|destruct He].
    destruct He as [<- | []]. cbn [x y].
    unfold match_grid_line in E.
    destruct (digits1 l) as [[ds rest]|] eqn:Hd; [|discriminate].
    destruct rest as [|d [|c rest]]; try discriminate.
    destruct (is_dot d && is_lower c) eqn:Hdc; [|discriminate].
    destruct (opt_dot_ws_label rest); [|discriminate].
    inversion E; subst g1 g2 g3.
    apply andb_prop in Hdc. destruct Hdc as [_ Hc].
    destruct (digits1_eq _ _ _ Hd) as (_ & Hds & _).
    pose proof (int_nonneg ds Hds).
    assert (0 <= letter_index c) by (unfold letter_index; char_facts).
    repeat split; try nia. discriminate.
  - apply in_flat_map in He. destruct He as (l & _ & He).
    unfold row_line in He.
    destruct (match_row_line l) as [[g1 g2]|] eqn:E; [|destruct He].
    apply in_map_iff in He. destruct He as (c & <- & Hc).
    apply range_In in Hc. cbn [x y].
    unfold match_row_line in E.
    destruct (digits1 l) as [[ds rest]|] eqn:Hd; [|discriminate].
    destruct rest as [|d rest]; [discriminate|].
    destruct (is_dot d); [|discriminate].
    destruct (ws_plus_label rest); [|discriminate].
    inversion E; subst g1 g2.
    destruct (digits1_eq _ _ _ Hd) as (_ & Hds & _).
    pose proof (int_nonneg ds Hds).
    repeat split; try nia. discriminate.
  - unfold plain_lines in He.
    destruct (plain_loop_nonneg _ _ _ _ _ _ Ht (Z.le_refl 0) He) as [Hx Hy].
    repeat split; try lia.
Qed.

Lemma entries_not_left_of_sheet_witness :
  0 < 32
  /\ sheet_entries 32 64 64 ["0.a ghost"] = [mkEntry "ghost" 0 (-32) 32 32]
  /\ 0 <= x (mkEntry "ghost" 0 (-32) 32 32)
  /\ - 32 <= y (mkEntry "ghost" 0 (-32) 32 32).
Proof.
  split; [lia|]. split; [reflexivity|].
  destruct (entries_not_left_of_sheet 32 64 64 ["0.a ghost"]
              (mkEntry "ghost" 0 (-32) 32 32) ltac:(lia)
              (or_introl eq_refl)) as (Hx & Hy & _).
  split; [exact Hx | exact Hy].
Defined.

Lemma label_lines_are_clean_witness :
  read_label_lines ("  1.a sword " ++ String cr NL ++ NL ++ "2.b shield")
  = ["1.a sword"; "2.b shield"]
  /\ strip "1.a sword" = "1.a sword".
Proof.
  split; [reflexivity|].
  exact (proj1 (proj2 (proj1 (label_lines_are_clean
           ("  1.a sword " ++ String cr NL ++ NL ++ "2.b shield"))
           "1.a sword" (or_introl eq_refl)))).
Defined.

Lemma from_dir_outcome_witness :
  create_spritesheet_from_dir ["readme.txt"; "notes.md"] "out.png" (16, 16)
    None = NoPngs
  /\ exists sheet,
       create_spritesheet_from_dir ["fa10.png"; "readme.txt"; "FA2.PNG"]
         "out.png" (16, 16) None = Saved sheet
       /\ map name (placed sheet) = ["FA2"; "fa10"].
Proof.
  split.
  - apply (proj2 (proj1 (proj2 (from_dir_outcome ["readme.txt"; "notes.md"]
                                  "out.png" 16 16 None)))).
    intros f [<-|[<-|[]]]; reflexivity.
  - eexists. split; reflexivity.
Defined.

Lemma categorized_outcome_witness :
  create_spritesheet_from_categorized_dirs ["weapons"; "LICENSE"; "armor"]
    (fun c => if String.eqb c "weapons" then Some ["sword2.png"; "sword10.png"]
              else if String.eqb c "armor" then Some ["helm.png"; "a.txt"]
              else None)
    "out.png" (32, 32)
  <> Raised
  /\ exists sheet,
       create_spritesheet_from_categorized_dirs
         ["weapons"; "LICENSE"; "armor"]
         (fun c => if String.eqb c "weapons"
                   then Some ["sword10.png"; "sword2.png"]
                   else if String.eqb c "armor" then Some ["helm.png"; "a.txt"]
                   else None)
         "out.png" (32, 32) = Saved sheet
       /\ map name (placed sheet)
          = ["armor/helm"; "weapons/sword2"; "weapons/sword10"].
Proof.
  split.
  - apply (proj1 (categorized_outcome _ _ "out.png" 32 32)).
  - eexists. split; reflexivity.
Defined.
